(** * sms-nestjs: bulk dispatch, retry and fallback helpers

    A shallow embedding of [SmsService.verifyBulk] (the NestJS wrapper
    service) and of [NotificationService.sendOtpWithRetry] /
    [NotificationService.sendWithFallback] (the advanced example), with
    the properties the specification states about them.

    Asynchronous TypeScript is modelled in a small monad that threads a
    trace of observable events (core sends, promise settlements, timer
    delays) and distinguishes normal completion, a thrown value and a
    computation that never completes.  Logger calls are left out: they
    return nothing and never alter control flow. *)

From stdpp Require Import base numbers list strings gmap.

Local Open Scope string_scope.
Local Open Scope Z_scope.
Local Open Scope list_scope.

(** ** Data model

    The types below are declared in the core library that the repository
    wraps and re-exports; the repository holds only their uses. *)

(** Modelled from the spec: a driver is "an identifier selecting which
    underlying SMS provider/transport handles a send".  The declaration
    of the [DriverType] enum is in the core library; its members are the
    ones the sources name ([sms.config.ts]), with the string values the
    test suite and the driver table give them. *)
Inductive DriverType := KAVENEGAR | SMSIR | MELIPAYAMAK | IPPANEL | MOCK.

#[global] Instance DriverType_eq_dec : EqDecision DriverType.
Proof. solve_decision. Defined.

Definition driver_value (d : DriverType) : string :=
  match d with
  | KAVENEGAR => "kavenegar"
  | SMSIR => "smsir"
  | MELIPAYAMAK => "melipayamak"
  | IPPANEL => "ippanel"
  | MOCK => "mock"
  end.

(** JavaScript truthiness of a string and of an optional driver. *)
Definition string_truthy (s : string) : bool :=
  match s with EmptyString => false | _ => true end.

Definition truthy (d : option DriverType) : bool :=
  match d with
  | Some d => string_truthy (driver_value d)
  | None => false
  end.

(** [a || b] on optional drivers. *)
Definition js_or (a b : option DriverType) : option DriverType :=
  if truthy a then a else b.

(** Modelled from the spec: the MessageDescriptor "{recipient, template,
    tokens, optional driver selector}", declared in the core library as
    [ISmsMessage]; the fields bear the names the sources use.  Token
    values are kept as strings. *)
Record ISmsMessage := {
  to : string;
  template : string;
  tokens : list (string * string);
  driver : option DriverType;
}.

(** Modelled from the spec: the SendResult "{success, optional message
    id, optional error, optional error code}", declared in the core
    library as [ISmsResponse]. *)
Record ISmsResponse := {
  success : bool;
  messageId : option string;
  error : option string;
  errorCode : option string;
}.

(** Modelled from the spec: the send capability "may throw an error
    object optionally carrying a code field".  JavaScript lets any value
    be thrown, and the sources tell three kinds apart with [instanceof]:
    the [SmsException] of the core library, an [Error] whose code the
    sources read as [_code]; any other [Error], which may carry a [code]
    of its own (the system errors of Node do, ECONNRESET for one); and a
    value that is not an [Error], given by its string conversion
    [String(error)] and by the [message] and the [code] it may have. *)
Inductive JsThrown :=
  | SmsException (message : string) (_code : string)
  | JsError (message : string) (code : option string)
  | JsNonError (repr : string) (message code : option string).

Definition instanceof_Error (e : JsThrown) : bool :=
  match e with JsNonError _ _ _ => false | _ => true end.

Definition instanceof_SmsException (e : JsThrown) : bool :=
  match e with SmsException _ _ => true | _ => false end.

(** [error.message] for an [Error], [String(error)] otherwise. *)
Definition thrown_message (e : JsThrown) : string :=
  match e with
  | SmsException m _ => m
  | JsError m _ => m
  | JsNonError s _ _ => s
  end.

(** The message a thrown value carries, whatever its class. *)
Definition carried_message (e : JsThrown) : option string :=
  match e with
  | SmsException m _ => Some m
  | JsError m _ => Some m
  | JsNonError _ m _ => m
  end.

(** The code a thrown value carries, whatever its class. *)
Definition thrown_code (e : JsThrown) : option string :=
  match e with
  | SmsException _ c => Some c
  | JsError _ c => c
  | JsNonError _ _ c => c
  end.

(** What one invocation of the send capability does. *)
Inductive Outcome :=
  | Returned (response : ISmsResponse)
  | Thrown (error : JsThrown).

(** The wrapped core service.  A send may answer differently from one
    invocation to the next, so its outcome is a function of the messages
    it was invoked with before and of the current one. *)
Record CoreSmsService := {
  core_verify : list ISmsMessage -> ISmsMessage -> Outcome;
  isDriverAvailable : DriverType -> bool;
  getDefaultDriver : DriverType;
  getAvailableDrivers : list DriverType;
}.

(** ** Effects *)

Inductive Event :=
  | EvSend (m : ISmsMessage)   (* the core send capability is invoked *)
  | EvSettle (index : Z)       (* the batch promise of that index settles *)
  | EvDelay (ms : Z).          (* a timer of that many milliseconds elapses *)

Definition Trace := list Event.

(** The messages the core service was invoked with, oldest first. *)
Fixpoint sent (tr : Trace) : list ISmsMessage :=
  match tr with
  | [] => []
  | EvSend m :: tr' => m :: sent tr'
  | _ :: tr' => sent tr'
  end.

(** The delays that elapsed, oldest first. *)
Fixpoint delays (tr : Trace) : list Z :=
  match tr with
  | [] => []
  | EvDelay ms :: tr' => ms :: delays tr'
  | _ :: tr' => delays tr'
  end.

(** How a computation ends: with a value, with a thrown value, or not at
    all (a loop that does not terminate, a promise that never settles). *)
Inductive Completion (A : Type) :=
  | Normal (a : A)
  | Throw (e : JsThrown)
  | Hang.
Arguments Normal {A} a.
Arguments Throw {A} e.
Arguments Hang {A}.

(** A computation extends the trace it is given and completes. *)
Definition M (A : Type) : Type := Trace -> Completion A * Trace.

Definition ret {A} (a : A) : M A := fun tr => (Normal a, tr).

Definition bind {A B} (m : M A) (k : A -> M B) : M B :=
  fun tr =>
    match m tr with
    | (Normal a, tr') => k a tr'
    | (Throw e, tr') => (Throw e, tr')
    | (Hang, tr') => (Hang, tr')
    end.

Definition throw {A} (e : JsThrown) : M A := fun tr => (Throw e, tr).

Definition hang {A} : M A := fun tr => (Hang, tr).

(** [try { m } catch (error) { handler error }] *)
Definition try_catch {A} (m : M A) (handler : JsThrown -> M A) : M A :=
  fun tr =>
    match m tr with
    | (Throw e, tr') => handler e tr'
    | other => other
    end.

Definition emit (ev : Event) : M unit := fun tr => (Normal tt, tr ++ [ev]).

(** Calling an async function: its synchronous effects happen now and the
    caller gets a promise, here the completion it will settle with. *)
Definition async {A} (m : M A) : M (Completion A) :=
  fun tr => let '(c, tr') := m tr in (Normal c, tr').

Notation "'let*' x ':=' m 'in' k" := (bind m (fun x => k))
  (at level 10, x name, m at level 100, k at level 200).

(** ** JavaScript arrays *)

(** [Array.prototype.slice(start, end)] on integer arguments. *)
Definition slice {A} (l : list A) (start end_ : Z) : list A :=
  let len := Z.of_nat (length l) in
  let k := if start <? 0 then Z.max (len + start) 0 else Z.min start len in
  let final := if end_ <? 0 then Z.max (len + end_) 0 else Z.min end_ len in
  take (Z.to_nat (final - k)) (drop (Z.to_nat k) l).

(** [arr[index] = v]: inside the array the slot is overwritten, past its
    end the array grows and the slots in between are holes; a negative
    index sets a property and leaves the elements alone. *)
Definition array_set {A} (arr : list (option A)) (index : Z) (v : A)
  : list (option A) :=
  if index <? 0 then arr
  else
    let n := Z.to_nat index in
    if (n <? length arr)%nat then <[n := Some v]> arr
    else arr ++ replicate (n - length arr)%nat None ++ [Some v].

(** An array whose slots are all filled. *)
Fixpoint all_filled {A} (values : list (option A)) : option (list A) :=
  match values with
  | [] => Some []
  | Some v :: rest =>
      match all_filled rest with
      | Some vs => Some (v :: vs)
      | None => None
      end
  | None :: _ => None
  end.

(** ** SmsService (the wrapper service) *)

Section SmsService.

Variable coreService : CoreSmsService.

(** The order in which the promises of one batch settle: for the batch
    starting at index [i] with [n] members, positions into the batch,
    earliest first.  The environment decides it. *)
Variable completionOrder : Z -> nat -> list nat.

(** [this.coreService.verify(message)] *)
Definition coreVerify (message : ISmsMessage) : M ISmsResponse :=
  fun tr =>
    match core_verify coreService (sent tr) message with
    | Returned response => (Normal response, tr ++ [EvSend message])
    | Thrown error => (Throw error, tr ++ [EvSend message])
    end.

(** [SmsService.verify]: forwards the response, rethrows the error. *)
Definition verify (message : ISmsMessage) : M ISmsResponse :=
  try_catch (let* response := coreVerify message in ret response)
            (fun error => throw error).

(** The [options] argument of [verifyBulk]; an absent field takes its
    default in the destructuring. *)
Record BulkOptions := {
  concurrency : option Z;
  failFast : option bool;
}.

(** The [errorResponse] built in the [catch] of the batch callback:
    [error instanceof Error ? error.message : String(error)] and
    [error instanceof SmsException ? error._code : 'UNKNOWN_ERROR']. *)
Definition errorResponse_of (error : JsThrown) : ISmsResponse :=
  {| success := false;
     messageId := None;
     error := Some (thrown_message error);
     errorCode := Some (if instanceof_SmsException error
                        then match error with
                             | SmsException _ c => c
                             | _ => "UNKNOWN_ERROR"
                             end
                        else "UNKNOWN_ERROR") |}.

(** The async callback of [batch.map]. *)
Definition batch_callback (failFast : bool) (i : Z)
    (message : ISmsMessage) (index : nat) : M (Z * ISmsResponse) :=
  try_catch
    (let* response := verify message in ret (i + Z.of_nat index, response))
    (fun error =>
       let errorResponse := errorResponse_of error in
       if failFast then throw error
       else ret (i + Z.of_nat index, errorResponse)).

(** [batch.map(async (message, index) => ...)]: every callback runs up
    to its first suspension, in array order. *)
Fixpoint map_async {A} (f : ISmsMessage -> nat -> M A)
    (batch : list ISmsMessage) (index : nat) : M (list (Completion A)) :=
  match batch with
  | [] => ret []
  | message :: rest =>
      let* p := async (f message index) in
      let* ps := map_async f rest (S index) in
      ret (p :: ps)
  end.

(** [Promise.all]: as the promises settle, each fulfilled value is
    stored at the position of its promise; the first rejection rejects
    the whole. *)
Fixpoint settle_in_order {A} (label : nat -> Z)
    (promises : list (Completion A)) (order : list nat)
    (values : list (option A)) : M (list (option A)) :=
  match order with
  | [] => ret values
  | p :: order' =>
      match promises !! p with
      | Some (Normal v) =>
          let* _ := emit (EvSettle (label p)) in
          settle_in_order label promises order' (<[p := Some v]> values)
      | Some (Throw e) =>
          let* _ := emit (EvSettle (label p)) in
          throw e
      | _ => settle_in_order label promises order' values
      end
  end.

Definition Promise_all {A} (label : nat -> Z)
    (promises : list (Completion A)) (order : list nat) : M (list A) :=
  let* values := settle_in_order label promises order
              (replicate (length promises) None) in
  match all_filled values with
  | Some vs => ret vs
  | None => hang
  end.

(** [batchResults.forEach(({ index, response }) => ...)], which stores
    each response with [results[index] = response]. *)
Definition place_results (results : list (option ISmsResponse))
    (batchResults : list (Z * ISmsResponse)) : list (option ISmsResponse) :=
  foldl (fun res '(index, response) => array_set res index response)
        results batchResults.

(** One iteration of the loop: the batch is mapped to promises, then
    awaited inside [try]/[catch]; it yields the value of [results]. *)
Definition bulk_iteration (failFast : bool) (i : Z)
    (batch : list ISmsMessage) (results : list (option ISmsResponse))
  : M (list (option ISmsResponse)) :=
  let* batchPromises := map_async (batch_callback failFast i) batch 0 in
  try_catch
    (let* batchResults :=
       Promise_all (fun p => i + Z.of_nat p) batchPromises
         (completionOrder i (length batch)) in
     ret (place_results results batchResults))
    (fun error => if failFast then throw error else ret results).

(** The [for (let i = 0; i < messages.length; i += concurrency)] loop. *)
Fixpoint bulk_loop (fuel : nat) (messages : list ISmsMessage)
    (concurrency : Z) (failFast : bool) (i : Z)
    (results : list (option ISmsResponse))
  : M (list (option ISmsResponse)) :=
  match fuel with
  | O => hang
  | S fuel' =>
      if i <? Z.of_nat (length messages) then
        let batch := slice messages i (i + concurrency) in
        let* results := bulk_iteration failFast i batch results in
        bulk_loop fuel' messages concurrency failFast (i + concurrency)
          results
      else ret results
  end.

Definition bulk_concurrency (options : BulkOptions) : Z :=
  default 5 (concurrency options).

Definition bulk_failFast (options : BulkOptions) : bool :=
  default false (failFast options).

Definition verifyBulk (fuel : nat) (messages : list ISmsMessage)
    (options : BulkOptions) : M (list (option ISmsResponse)) :=
  let concurrency := bulk_concurrency options in
  let failFast := bulk_failFast options in
  bulk_loop fuel messages concurrency failFast 0 [].

End SmsService.

(** ** NotificationService (retry and fallback helpers) *)

Section NotificationService.

Variable coreService : CoreSmsService.

(** [this.delay(ms)]: a timer of [ms] milliseconds. *)
Definition delay (ms : Z) : M unit := emit (EvDelay ms).

(** [lastError = error instanceof Error ? error : new Error(String(error))] *)
Definition as_Error (error : JsThrown) : JsThrown :=
  if instanceof_Error error then error
  else JsError (thrown_message error) None.

Definition otp_message (phoneNumber code : string)
    (driver : option DriverType) : ISmsMessage :=
  {| to := phoneNumber;
     template := "otp-verification";
     tokens := [("code", code)];
     driver := driver |}.

(** The [for (let attempt = 1; attempt <= maxRetries; attempt++)] loop
    and the [throw] after it.  The body yields the response it returns
    with, if it returns, and the value of [lastError]. *)
Fixpoint retry_loop (fuel : nat) (phoneNumber code : string)
    (maxRetries : Z) (driver : option DriverType) (attempt : Z)
    (lastError : option JsThrown) : M ISmsResponse :=
  match fuel with
  | O => hang
  | S fuel' =>
      if attempt <=? maxRetries then
        let* r :=
          try_catch
            (let message := otp_message phoneNumber code driver in
             let* response := verify coreService message in
             if success response then ret (Some response, lastError)
             else ret (Some response, lastError))
            (fun error =>
               let lastError := Some (as_Error error) in
               let* _ := (if attempt <? maxRetries
                          then delay (2 ^ attempt * 1000)
                          else ret tt) in
               ret (None, lastError)) in
        match r with
        | (Some response, _) => ret response
        | (None, lastError) =>
            retry_loop fuel' phoneNumber code maxRetries driver
              (attempt + 1) lastError
        end
      else throw (default (JsError "All retry attempts failed" None)
                          lastError)
  end.

Definition sendOtpWithRetry (fuel : nat) (phoneNumber code : string)
    (maxRetries : option Z) (driver : option DriverType) : M ISmsResponse :=
  let maxRetries := default 3 maxRetries in
  retry_loop fuel phoneNumber code maxRetries driver 1 None.

(** [alternatives[0] || DriverType.MOCK] *)
Definition getAlternativeDriver (currentDriver : option DriverType)
  : option DriverType :=
  let available := getAvailableDrivers coreService in
  let alternatives := filter (fun d => Some d ≠ currentDriver) available in
  js_or (head alternatives) (Some MOCK).

(** [.filter(Boolean)] *)
Definition filter_Boolean (l : list (option DriverType)) : list DriverType :=
  omap (fun d => if truthy d then d else None) l.

Definition fallback_drivers (primaryDriver fallbackDriver : option DriverType)
  : list DriverType :=
  filter_Boolean
    [ js_or primaryDriver (Some (getDefaultDriver coreService));
      js_or fallbackDriver (getAlternativeDriver primaryDriver) ].

Definition all_failed : ISmsResponse :=
  {| success := false;
     messageId := None;
     error := Some "All drivers failed or unavailable";
     errorCode := None |}.

Definition fallback_message (phoneNumber template : string)
    (tokens : list (string * string)) (driver : DriverType) : ISmsMessage :=
  {| to := phoneNumber;
     template := template;
     tokens := tokens;
     driver := Some driver |}.

(** The [for (const driver of drivers)] loop and the [return] after it.
    The body yields the response it returns with, if it returns, and the
    value of [lastResponse]. *)
Fixpoint fallback_loop (phoneNumber template : string)
    (tokens : list (string * string)) (drivers : list DriverType)
    (lastResponse : option ISmsResponse) : M ISmsResponse :=
  match drivers with
  | [] => ret (default all_failed lastResponse)
  | driver :: rest =>
      let* r :=
        try_catch
          (if negb (isDriverAvailable coreService driver)
           then ret (None, lastResponse)
           else
             let message :=
               fallback_message phoneNumber template tokens driver in
             let* response := verify coreService message in
             if success response then ret (Some response, lastResponse)
             else ret (None, Some response))
          (fun error => ret (None, lastResponse)) in
      match r with
      | (Some response, _) => ret response
      | (None, lastResponse) =>
          fallback_loop phoneNumber template tokens rest lastResponse
      end
  end.

Definition sendWithFallback (phoneNumber template : string)
    (tokens : list (string * string))
    (primaryDriver fallbackDriver : option DriverType) : M ISmsResponse :=
  let drivers := fallback_drivers primaryDriver fallbackDriver in
  fallback_loop phoneNumber template tokens drivers None.

End NotificationService.

(** ** Notions used to state the properties *)

(** The outcomes of sending [messages] one after the other, after the
    core service was invoked with [history]. *)
Fixpoint outcomes (coreService : CoreSmsService)
    (history messages : list ISmsMessage) : list Outcome :=
  match messages with
  | [] => []
  | m :: rest =>
      core_verify coreService history m
        :: outcomes coreService (history ++ [m]) rest
  end.

Definition is_thrown (o : Outcome) : bool :=
  match o with Thrown _ => true | Returned _ => false end.

Definition is_success (o : Outcome) : bool :=
  match o with Returned r => success r | Thrown _ => false end.

(** The entry of the result array for a send that ended with [o], when
    the exception of a throwing send is captured. *)
Definition bulk_response (o : Outcome) : ISmsResponse :=
  match o with
  | Returned response => response
  | Thrown error => errorResponse_of error
  end.

(** How the promise of the batch callback settles for a send that ended
    with [o]. *)
Definition settled_with (failFast : bool) (i : Z) (index : nat) (o : Outcome)
  : Completion (Z * ISmsResponse) :=
  match o with
  | Returned response => Normal (i + Z.of_nat index, response)
  | Thrown error =>
      if failFast then Throw error
      else Normal (i + Z.of_nat index, errorResponse_of error)
  end.

(** A send whose promise is rejected: it threw and [failFast] is set. *)
Definition rejects (failFast : bool) (o : Outcome) : bool :=
  failFast && is_thrown o.

(** Consecutive batches of [size] elements, each with the index of its
    first element; the last batch may be smaller. *)
Fixpoint batches_from {A} (fuel size start : nat) (l : list A)
  : list (nat * list A) :=
  match fuel with
  | O => []
  | S fuel' =>
      match l with
      | [] => []
      | _ => (start, take size l)
               :: batches_from fuel' size (start + size) (drop size l)
      end
  end.

Definition batches {A} (size : nat) (l : list A) : list (nat * list A) :=
  batches_from (length l) size 0 l.

Definition settle_events (start : nat) (order : list nat) : Trace :=
  (fun p => EvSettle (Z.of_nat start + Z.of_nat p)) <$> order.

(** What one batch adds to the trace when all its promises are fulfilled:
    its sends, then its settlements. *)
Definition batch_trace (completionOrder : Z -> nat -> list nat)
    (b : nat * list ISmsMessage) : Trace :=
  (EvSend <$> b.2)
    ++ settle_events b.1 (completionOrder (Z.of_nat b.1) (length b.2)).

(** The trace of [k] attempts that throw and are followed by their backoff
    delay; attempts are numbered from 1. *)
Definition backoff_trace (message : ISmsMessage) (k : nat) : Trace :=
  seq 1 k ≫= fun attempt =>
    [EvSend message; EvDelay (2 ^ Z.of_nat attempt * 1000)].

(** [lastResponse] after a send that ended with [o] without success. *)
Definition remember (lastResponse : option ISmsResponse) (o : Outcome)
  : option ISmsResponse :=
  match o with
  | Returned response => Some response
  | Thrown _ => lastResponse
  end.

(** The responses that sends returned, oldest first. *)
Definition returned (outs : list Outcome) : list ISmsResponse :=
  omap (fun o => match o with
                 | Returned response => Some response
                 | Thrown _ => None
                 end) outs.

(** The messages [sendWithFallback] sends for the candidates that the
    configuration reports available, in the order of the candidates. *)
Definition fallback_messages (coreService : CoreSmsService)
    (phoneNumber template : string) (tokens : list (string * string))
    (drivers : list DriverType) : list ISmsMessage :=
  fallback_message phoneNumber template tokens
    <$> filter (fun d => isDriverAvailable coreService d = true) drivers.

(** The slots [Promise.all] has filled once the promises at the positions
    [order], fulfilled with the values [vs], have settled. *)
Definition fill_slot {A} (vs : list A) (values : list (option A)) (p : nat)
  : list (option A) :=
  match vs !! p with
  | Some v => <[p := Some v]> values
  | None => values
  end.

Definition fill {A} (vs : list A) (values : list (option A))
    (order : list nat) : list (option A) :=
  foldl (fill_slot vs) values order.

(** ** A sample configuration

    A core service in the manner of the mock driver of the test suite: a
    message without recipient is refused with an exception, a recipient
    on the block list is declined by the provider, anything else is sent.
    Only the mock driver is available. *)

Definition sample_message (recipient : string) : ISmsMessage :=
  {| to := recipient;
     template := "verify";
     tokens := [("code", "123456")];
     driver := None |}.

Definition accepted (recipient : string) : ISmsResponse :=
  {| success := true;
     messageId := Some recipient;
     error := None;
     errorCode := None |}.

Definition declined : ISmsResponse :=
  {| success := false;
     messageId := None;
     error := Some "Recipient is blocked";
     errorCode := Some "PROVIDER_REJECTED" |}.

Definition invalid_recipient : JsThrown :=
  SmsException "Recipient is required" "INVALID_RECIPIENT".

Definition blocked_recipient : string := "+10000000000".

Definition sample_core : CoreSmsService :=
  {| core_verify := fun _ message =>
       if String.eqb (to message) "" then Thrown invalid_recipient
       else if String.eqb (to message) blocked_recipient
            then Returned declined
            else Returned (accepted (to message));
     isDriverAvailable := fun d => bool_decide (d = MOCK);
     getDefaultDriver := KAVENEGAR;
     getAvailableDrivers := [MOCK] |}.

(** The same service with every driver available. *)
Definition open_core : CoreSmsService :=
  {| core_verify := core_verify sample_core;
     isDriverAvailable := fun _ => true;
     getDefaultDriver := KAVENEGAR;
     getAvailableDrivers := [KAVENEGAR; MOCK] |}.

(** A core service whose transport fails on its first two invocations. *)
Definition flaky_core : CoreSmsService :=
  {| core_verify := fun history message =>
       if (length history <? 2)%nat then Thrown (JsError "Timeout" None)
       else Returned (accepted (to message));
     isDriverAvailable := fun _ => true;
     getDefaultDriver := MOCK;
     getAvailableDrivers := [MOCK; KAVENEGAR] |}.

(** The system error of a socket that the peer closed: an [Error] with
    a code, and not an [SmsException]. *)
Definition connection_reset : JsThrown :=
  JsError "read ECONNRESET" (Some "ECONNRESET").

(** A plain object that a provider client throws: it has a message and a
    code, and is not an [Error]. *)
Definition gateway_fault : JsThrown :=
  JsNonError "[object Object]" (Some "Bad gateway") (Some "502").

(** A core service whose transport is down: the connection is reset on
    every send, and a message without recipient is refused by the
    provider client before that. *)
Definition offline_core : CoreSmsService :=
  {| core_verify := fun _ message =>
       if String.eqb (to message) "" then Thrown gateway_fault
       else Thrown connection_reset;
     isDriverAvailable := fun _ => true;
     getDefaultDriver := KAVENEGAR;
     getAvailableDrivers := [KAVENEGAR; MOCK] |}.

(** The response of a provider that declines, under its own code. *)
Definition declined_by (d : DriverType) : ISmsResponse :=
  {| success := false;
     messageId := None;
     error := Some "Recipient is blocked";
     errorCode := Some (driver_value d) |}.

(** A core service whose providers all decline. *)
Definition declining_core : CoreSmsService :=
  {| core_verify := fun _ message =>
       Returned (declined_by (default MOCK (driver message)));
     isDriverAvailable := fun _ => true;
     getDefaultDriver := KAVENEGAR;
     getAvailableDrivers := [KAVENEGAR; MOCK] |}.

(** A completion order: the sends of a batch complete latest first. *)
Definition latest_first (i : Z) (n : nat) : list nat := reverse (seq 0 n).

(** * Properties *)

(** ** Traces *)

Lemma sent_app tr1 tr2 : sent (tr1 ++ tr2) = sent tr1 ++ sent tr2.
Proof. induction tr1 as [|[] tr1 IH]; simpl; congruence. Qed.

Lemma sent_sends ms : sent (EvSend <$> ms) = ms.
Proof. induction ms as [|m ms IH]; csimpl; congruence. Qed.

Lemma sent_settle_events start order : sent (settle_events start order) = [].
Proof. induction order; csimpl; auto. Qed.

Lemma sent_batch_trace completionOrder b :
  sent (batch_trace completionOrder b) = b.2.
Proof.
  unfold batch_trace.
  by rewrite sent_app, sent_sends, sent_settle_events, app_nil_r.
Qed.

Lemma sent_batch_traces completionOrder bs :
  sent (bs ≫= batch_trace completionOrder) = concat (snd <$> bs).
Proof.
  induction bs as [|b bs IH]; [done|].
  rewrite bind_cons, sent_app, sent_batch_trace, IH. done.
Qed.

(** ** Outcomes *)

Lemma outcomes_app core h ms1 ms2 :
  outcomes core h (ms1 ++ ms2)
  = outcomes core h ms1 ++ outcomes core (h ++ ms1) ms2.
Proof.
  revert h. induction ms1 as [|m ms1 IH]; intros h; simpl.
  - by rewrite app_nil_r.
  - by rewrite IH, <- app_assoc.
Qed.

Lemma length_outcomes core h ms : length (outcomes core h ms) = length ms.
Proof. revert h. induction ms; intros; simpl; auto. Qed.

Lemma lookup_outcomes core h ms i m :
  ms !! i = Some m →
  outcomes core h ms !! i = Some (core_verify core (h ++ take i ms) m).
Proof.
  revert h i. induction ms as [|m' ms IH]; intros h [|i] Hm; simplify_eq/=.
  - by rewrite app_nil_r.
  - rewrite (IH _ _ Hm), <- app_assoc. done.
Qed.

(** ** Arrays *)

Lemma slice_batch {A} (l : list A) (n : nat) (c : Z) :
  1 ≤ c →
  slice l (Z.of_nat n) (Z.of_nat n + c) = take (Z.to_nat c) (drop n l).
Proof.
  intros Hc. unfold slice.
  destruct (Z.ltb_spec (Z.of_nat n) 0); [lia|].
  destruct (Z.ltb_spec (Z.of_nat n + c) 0); [lia|].
  destruct (decide (n ≤ length l)%nat) as [Hn|Hn].
  - rewrite (Z.min_l (Z.of_nat n)) by lia. rewrite Nat2Z.id.
    destruct (decide (Z.of_nat n + c ≤ Z.of_nat (length l))) as [Hle|Hgt].
    + rewrite Z.min_l by lia. f_equal. lia.
    + rewrite Z.min_r by lia.
      rewrite !take_ge; [done| |]; rewrite length_drop; lia.
  - rewrite (Z.min_r (Z.of_nat n)) by lia. rewrite Nat2Z.id.
    rewrite (drop_ge l (length l)) by lia.
    rewrite (drop_ge l n) by lia.
    by rewrite !take_nil.
Qed.

Lemma array_set_end {A} (arr : list (option A)) (v : A) :
  array_set arr (Z.of_nat (length arr)) v = arr ++ [Some v].
Proof.
  unfold array_set.
  destruct (Z.ltb_spec (Z.of_nat (length arr)) 0); [lia|].
  rewrite Nat2Z.id.
  destruct (Nat.ltb_spec (length arr) (length arr)); [lia|].
  by rewrite Nat.sub_diag.
Qed.

Lemma all_filled_fmap {A} (vs : list A) : all_filled (Some <$> vs) = Some vs.
Proof. induction vs as [|v vs IH]; csimpl; [done|]. by rewrite IH. Qed.

(** ** Batches *)

Lemma batches_from_fuel {A} fuel1 fuel2 size start (l : list A) :
  (1 ≤ size)%nat → (length l ≤ fuel1)%nat → (length l ≤ fuel2)%nat →
  batches_from fuel1 size start l = batches_from fuel2 size start l.
Proof.
  intros Hsize. revert fuel2 start l.
  induction fuel1 as [|fuel1 IH]; intros fuel2 start l Hfuel1 Hfuel2.
  - destruct l; [by destruct fuel2|simpl in Hfuel1; lia].
  - destruct l as [|x l]; [by destruct fuel2|].
    destruct fuel2 as [|fuel2]; [simpl in Hfuel2; lia|].
    cbn [batches_from]. f_equal.
    apply IH; rewrite length_drop; simpl in *; lia.
Qed.

Lemma batches_from_concat {A} fuel size start (l : list A) :
  (1 ≤ size)%nat → (length l ≤ fuel)%nat →
  concat (snd <$> batches_from fuel size start l) = l.
Proof.
  intros Hsize. revert start l.
  induction fuel as [|fuel IH]; intros start l Hfuel.
  - destruct l; [done|simpl in Hfuel; lia].
  - destruct l as [|x l]; [done|].
    cbn [batches_from fmap list_fmap concat snd].
    rewrite IH by (rewrite length_drop; simpl in *; lia).
    apply take_drop.
Qed.

Lemma batches_from_lookup {A} fuel size start (l : list A) k i b :
  (1 ≤ size)%nat →
  batches_from fuel size start l !! k = Some (i, b) →
  i = (start + k * size)%nat ∧ b = take size (drop (k * size) l) ∧ b ≠ [].
Proof.
  intros Hsize. revert start l k.
  induction fuel as [|fuel IH]; intros start l k Hk; [done|].
  destruct l as [|x l]; [done|].
  cbn [batches_from] in Hk.
  destruct k as [|k].
  - simplify_eq/=. split_and!; [lia|done|]. destruct size; [lia|done].
  - cbn [lookup list_lookup] in Hk. apply IH in Hk as (-> & -> & Hne).
    split_and!; [lia| |done].
    rewrite drop_drop. repeat f_equal; lia.
Qed.

Lemma batches_concat {A} size (l : list A) :
  (1 ≤ size)%nat → concat (snd <$> batches size l) = l.
Proof. intros Hsize. by apply batches_from_concat. Qed.

Lemma batches_lookup {A} size (l : list A) k i b :
  (1 ≤ size)%nat →
  batches size l !! k = Some (i, b) →
  i = (k * size)%nat ∧ b = take size (drop i l) ∧ b ≠ [].
Proof.
  intros Hsize Hk.
  apply batches_from_lookup in Hk as (-> & -> & Hne); done.
Qed.

(** ** Promises *)

Section PromiseAll.
Context {A : Type}.
Implicit Types (vs : list A) (values : list (option A)).

Lemma fill_cons vs values p order :
  fill vs values (p :: order) = fill vs (fill_slot vs values p) order.
Proof. done. Qed.

Lemma length_fill vs values order :
  length (fill vs values order) = length values.
Proof.
  revert values. induction order as [|p order IH]; intros values; [done|].
  rewrite fill_cons. unfold fill_slot. destruct (vs !! p).
  - rewrite IH. apply length_insert.
  - apply IH.
Qed.

Lemma lookup_fill vs values order j :
  length values = length vs →
  fill vs values order !! j
  = if decide (j ∈ order) then Some <$> vs !! j else values !! j.
Proof.
  revert values. induction order as [|p order IH]; intros values Hlen.
  - by rewrite decide_False by apply not_elem_of_nil.
  - rewrite fill_cons. unfold fill_slot.
    destruct (vs !! p) as [v|] eqn:Hp.
    + rewrite IH by (by rewrite length_insert).
      destruct (decide (j ∈ order)) as [Hj|Hj].
      * rewrite decide_True by (by right). done.
      * destruct (decide (j = p)) as [->|Hne].
        -- rewrite decide_True by left. rewrite Hp.
           apply list_lookup_insert_eq.
           apply lookup_lt_Some in Hp. lia.
        -- rewrite decide_False by (intros [?|?]%elem_of_cons; done).
           by apply list_lookup_insert_ne.
    + rewrite IH by done.
      destruct (decide (j ∈ order)) as [Hj|Hj].
      * rewrite decide_True by (by right). done.
      * destruct (decide (j = p)) as [->|Hne].
        -- rewrite decide_True by left. rewrite Hp.
           apply lookup_ge_None. apply lookup_ge_None in Hp. lia.
        -- by rewrite decide_False by (intros [?|?]%elem_of_cons; done).
Qed.

Lemma fill_all vs order :
  order ≡ₚ seq 0 (length vs) →
  fill vs (replicate (length vs) None) order = Some <$> vs.
Proof.
  intros Hperm. apply list_eq. intros j.
  rewrite lookup_fill by apply length_replicate.
  rewrite list_lookup_fmap.
  destruct (decide (j ∈ order)) as [Hj|Hj]; [done|].
  rewrite Hperm, elem_of_seq in Hj.
  rewrite (lookup_ge_None_2 vs j) by lia.
  apply lookup_replicate_None. lia.
Qed.

Lemma settle_in_order_fulfilled label vs order values tr :
  Forall (fun p => (p < length vs)%nat) order →
  settle_in_order label (Normal <$> vs) order values tr
  = (Normal (fill vs values order),
     tr ++ ((fun p => EvSettle (label p)) <$> order)).
Proof.
  intros Horder. revert values tr.
  induction Horder as [|p order Hp _ IH]; intros values tr.
  - by rewrite app_nil_r.
  - cbn [settle_in_order]. rewrite fill_cons. unfold fill_slot.
    rewrite list_lookup_fmap.
    apply lookup_lt_is_Some in Hp as [v ->].
    cbn [fmap option_fmap option_map].
    unfold bind, emit. rewrite IH.
    csimpl. by rewrite <- app_assoc.
Qed.

Lemma Promise_all_fulfilled label vs order tr :
  order ≡ₚ seq 0 (length vs) →
  Promise_all label (Normal <$> vs) order tr
  = (Normal vs, tr ++ ((fun p => EvSettle (label p)) <$> order)).
Proof.
  intros Hperm. unfold Promise_all, bind.
  rewrite settle_in_order_fulfilled, length_fmap.
  - by rewrite fill_all, all_filled_fmap.
  - apply Forall_forall. intros p Hp.
    rewrite Hperm, elem_of_seq in Hp. lia.
Qed.

Lemma settle_in_order_rejected label (promises : list (Completion A))
    pre p post e values tr :
  Forall (fun q => ∃ v, promises !! q = Some (Normal v)) pre →
  promises !! p = Some (Throw e) →
  settle_in_order label promises (pre ++ p :: post) values tr
  = (Throw e, tr ++ ((fun p => EvSettle (label p)) <$> pre ++ [p])).
Proof.
  intros Hpre Hp. revert values tr.
  induction Hpre as [|q pre [v Hq] _ IH]; intros values tr.
  - cbn [app settle_in_order]. rewrite Hp. done.
  - cbn [app settle_in_order]. rewrite Hq.
    unfold bind, emit. rewrite IH.
    csimpl. by rewrite <- app_assoc.
Qed.

Lemma Promise_all_rejected label (promises : list (Completion A))
    pre p post e tr :
  Forall (fun q => ∃ v, promises !! q = Some (Normal v)) pre →
  promises !! p = Some (Throw e) →
  Promise_all label promises (pre ++ p :: post) tr
  = (Throw e, tr ++ ((fun p => EvSettle (label p)) <$> pre ++ [p])).
Proof.
  intros Hpre Hp. unfold Promise_all, bind.
  by rewrite (settle_in_order_rejected _ _ _ _ _ e).
Qed.
End PromiseAll.

(** ** The bulk dispatcher *)

Section BulkDispatcher.

Variable coreService : CoreSmsService.
Variable completionOrder : Z -> nat -> list nat.

(** Every promise of a batch settles, in some order. *)
Hypothesis completionOrder_perm :
  ∀ i n, completionOrder i n ≡ₚ seq 0 n.


Lemma verify_run message tr :
  verify coreService message tr
  = (match core_verify coreService (sent tr) message with
     | Returned response => Normal response
     | Thrown error => Throw error
     end, tr ++ [EvSend message]).
Proof.
  unfold verify, try_catch, bind, coreVerify, ret, throw.
  by destruct (core_verify _ _ _).
Qed.

Lemma batch_callback_run failFast i message index tr :
  batch_callback coreService failFast i message index tr
  = (settled_with failFast i index
       (core_verify coreService (sent tr) message),
     tr ++ [EvSend message]).
Proof.
  unfold batch_callback, try_catch, bind. rewrite verify_run.
  destruct (core_verify _ _ _); [done|]. by destruct failFast.
Qed.

Lemma map_async_run failFast i batch index tr :
  map_async (batch_callback coreService failFast i) batch index tr
  = (Normal (imap (fun p => settled_with failFast i (index + p))
               (outcomes coreService (sent tr) batch)),
     tr ++ (EvSend <$> batch)).
Proof.
  revert index tr. induction batch as [|m batch IH]; intros index tr.
  - by rewrite app_nil_r.
  - cbn [map_async outcomes]. unfold bind at 1, async.
    rewrite batch_callback_run. unfold bind at 1. rewrite IH.
    rewrite sent_app. cbn [sent]. unfold ret.
    rewrite imap_cons, Nat.add_0_r. csimpl. rewrite <- app_assoc.
    do 3 f_equal.
    apply imap_ext. intros p o _. cbn. f_equal. lia.
Qed.

Lemma settled_fulfilled failFast i outs :
  Forall (fun o => rejects failFast o = false) outs →
  imap (fun p => settled_with failFast i (0 + p)) outs
  = Normal <$> imap (fun p o => (i + Z.of_nat p, bulk_response o)) outs.
Proof.
  intros Houts. apply list_eq. intros p.
  rewrite list_lookup_fmap, !list_lookup_imap.
  destruct (outs !! p) as [o|] eqn:Hp; [|done].
  cbn. f_equal.
  eapply Forall_lookup_1 in Houts; [|done].
  destruct o as [r|e]; [done|].
  destruct failFast; [done|done].
Qed.

Lemma place_results_end results rs :
  place_results results
    (imap (fun p r => (Z.of_nat (length results) + Z.of_nat p, r)) rs)
  = results ++ (Some <$> rs).
Proof.
  revert results. induction rs as [|r rs IH]; intros results.
  - by rewrite app_nil_r.
  - rewrite imap_cons. unfold place_results. cbn [foldl].
    rewrite Z.add_0_r, array_set_end.
    change (foldl _ ?a ?b) with (place_results a b).
    csimpl.
    replace (results ++ Some r :: (Some <$> rs))
      with ((results ++ [Some r]) ++ (Some <$> rs))
      by (by rewrite <- app_assoc).
    rewrite <- IH.
    f_equal. apply imap_ext. intros p r' _. cbn.
    rewrite length_app. cbn. f_equal. lia.
Qed.

(** An iteration whose promises are all fulfilled appends the responses
    of its batch to [results]. *)
Lemma bulk_iteration_fulfilled failFast n batch results tr :
  length results = n →
  Forall (fun o => rejects failFast o = false)
         (outcomes coreService (sent tr) batch) →
  bulk_iteration coreService completionOrder failFast (Z.of_nat n)
    batch results tr
  = (Normal (results
             ++ (Some ∘ bulk_response
                   <$> outcomes coreService (sent tr) batch)),
     tr ++ batch_trace completionOrder (n, batch)).
Proof.
  intros Hlen Houts. unfold bulk_iteration, bind at 1.
  rewrite map_async_run, settled_fulfilled by done.
  unfold try_catch, bind.
  rewrite Promise_all_fulfilled.
  2:{ rewrite length_imap, length_outcomes. apply completionOrder_perm. }
  unfold ret, batch_trace, settle_events. cbn [fst snd].
  rewrite <- app_assoc. f_equal. subst n.
  rewrite list_fmap_compose, <- place_results_end, imap_fmap.
  done.
Qed.

(** An iteration in fail-fast mode in which a send threw: the first
    rejection to arrive is thrown on, whatever settles later. *)
Lemma bulk_iteration_rejected n batch results tr pre p post e :
  completionOrder (Z.of_nat n) (length batch) = pre ++ p :: post →
  outcomes coreService (sent tr) batch !! p = Some (Thrown e) →
  Forall (fun q => ∃ r,
            outcomes coreService (sent tr) batch !! q = Some (Returned r))
         pre →
  bulk_iteration coreService completionOrder true (Z.of_nat n)
    batch results tr
  = (Throw e, tr ++ (EvSend <$> batch) ++ settle_events n (pre ++ [p])).
Proof.
  intros Horder Hp Hpre. unfold bulk_iteration, bind at 1.
  rewrite map_async_run. unfold try_catch, bind. rewrite Horder.
  rewrite (Promise_all_rejected _ _ _ _ _ e).
  - unfold throw, settle_events. by rewrite <- app_assoc.
  - eapply Forall_impl; [exact Hpre|]. intros q [r Hq]. cbn beta in *.
    rewrite list_lookup_imap, Hq. eauto.
  - by rewrite list_lookup_imap, Hp.
Qed.

Lemma first_thrown (outs : list Outcome) (order : list nat) :
  Forall (fun q => (q < length outs)%nat) order →
  Exists (fun q => is_thrown <$> outs !! q = Some true) order →
  ∃ pre p post e,
    order = pre ++ p :: post
    ∧ outs !! p = Some (Thrown e)
    ∧ Forall (fun q => ∃ r, outs !! q = Some (Returned r)) pre.
Proof.
  induction 1 as [|q order Hq Horder IH]; intros Hex.
  - by apply Exists_nil in Hex.
  - apply lookup_lt_is_Some in Hq as [o Ho].
    destruct o as [r|e].
    + apply Exists_cons in Hex as [Hex|Hex].
      { rewrite Ho in Hex. done. }
      destruct (IH Hex) as (pre & p & post & e & -> & Hp & Hpre).
      exists (q :: pre), p, post, e. split_and!; [done|done|].
      constructor; eauto.
    + exists [], q, order, e. split_and!; [done|done|constructor].
Qed.

Lemma first_thrown_perm (outs : list Outcome) (order : list nat) :
  order ≡ₚ seq 0 (length outs) →
  Exists (fun o => is_thrown o = true) outs →
  ∃ pre p post e,
    order = pre ++ p :: post
    ∧ outs !! p = Some (Thrown e)
    ∧ Forall (fun q => ∃ r, outs !! q = Some (Returned r)) pre.
Proof.
  intros Hperm Hex. apply first_thrown.
  - apply Forall_forall. intros q Hq.
    rewrite Hperm, elem_of_seq in Hq. lia.
  - apply Exists_exists in Hex as (o & [j Hj]%list_elem_of_lookup & Ho).
    apply Exists_exists. exists j. split.
    + rewrite Hperm, elem_of_seq. apply lookup_lt_Some in Hj. lia.
    + by rewrite Hj; cbn; rewrite Ho.
Qed.

Section BulkLoop.

Variable messages : list ISmsMessage.
Variable concurrency : Z.
Hypothesis concurrency_pos : 1 ≤ concurrency.

(** What the loop does from index [n] on: either every remaining
    promise is fulfilled, and the loop returns the array completed with
    the responses of the remaining messages, batch after batch; or, in
    fail-fast mode, some batch [k] has a rejected promise, and the loop
    throws the first rejection of that batch to arrive. *)
Lemma bulk_loop_run failFast fuel n results tr :
  length results = (n `min` length messages)%nat →
  (length (drop n messages) < fuel)%nat →
  let c := Z.to_nat concurrency in
  let rest := drop n messages in
  let outs := outcomes coreService (sent tr) rest in
  let bs := batches_from fuel c n rest in
  (Forall (fun o => rejects failFast o = false) outs
   ∧ bulk_loop coreService completionOrder fuel messages concurrency
       failFast (Z.of_nat n) results tr
     = (Normal (results ++ (Some ∘ bulk_response <$> outs)),
        tr ++ (bs ≫= batch_trace completionOrder)))
  ∨ (failFast = true
     ∧ ∃ k i b pre p post e,
         bs !! k = Some (i, b)
         ∧ completionOrder (Z.of_nat i) (length b) = pre ++ p :: post
         ∧ outs !! (k * c + p)%nat = Some (Thrown e)
         ∧ Forall (fun o => is_thrown o = false) (take (k * c) outs)
         ∧ Forall (fun q =>
                     ∃ r, outs !! (k * c + q)%nat = Some (Returned r)) pre
         ∧ bulk_loop coreService completionOrder fuel messages concurrency
             failFast (Z.of_nat n) results tr
           = (Throw e,
              tr ++ (take k bs ≫= batch_trace completionOrder)
                 ++ (EvSend <$> b) ++ settle_events i (pre ++ [p]))).
Proof.
  revert n results tr.
  induction fuel as [|fuel IH]; intros n results tr Hlen Hfuel; [lia|].
  cbn zeta. cbn [bulk_loop].
  destruct (Z.ltb_spec (Z.of_nat n) (Z.of_nat (length messages)))
    as [Hn|Hn].
  2:{ left. rewrite drop_ge by lia. split; [constructor|].
      unfold ret. cbn. by rewrite !app_nil_r. }
  rewrite slice_batch by done.
  set (c := Z.to_nat concurrency).
  set (batch := take c (drop n messages)).
  assert (Hrest : drop n messages = batch ++ drop (n + c) messages).
  { unfold batch. by rewrite <- drop_drop, take_drop. }
  assert (Hne : drop n messages ≠ []).
  { intros Hnil%(f_equal length). rewrite length_drop in Hnil.
    simpl in Hnil. lia. }
  assert (Hbs : batches_from (S fuel) c n (drop n messages)
                = (n, batch)
                    :: batches_from fuel c (n + c) (drop (n + c) messages)).
  { cbn [batches_from]. fold batch.
    destruct (drop n messages) eqn:Hd; [done|].
    rewrite <- Hd, drop_drop. done. }
  rewrite Hbs. setoid_rewrite Hrest. setoid_rewrite outcomes_app.
  set (outs_b := outcomes coreService (sent tr) batch).
  destruct (decide (Forall (fun o => rejects failFast o = false) outs_b))
    as [Hful|Hrej].
  - (* the batch is fulfilled *)
    unfold bind.
    rewrite (bulk_iteration_fulfilled failFast n) by (done || lia).
    fold outs_b.
    replace (Z.of_nat n + concurrency) with (Z.of_nat (n + c)) by lia.
    specialize (IH (n + c)%nat (results ++ (Some ∘ bulk_response <$> outs_b))
                   (tr ++ batch_trace completionOrder (n, batch))).
    rewrite sent_app, sent_batch_trace in IH. cbn [snd] in IH.
    destruct IH as [[Hful' Hrun]|(-> & k & i & b & pre & p & post & e & IH)].
    + rewrite length_app, length_fmap. unfold outs_b.
      rewrite length_outcomes. unfold batch.
      rewrite length_take, length_drop. lia.
    + rewrite Hrest, length_app in Hfuel. rewrite length_drop in *.
      unfold batch in Hfuel. rewrite length_take, length_drop in Hfuel. lia.
    + left. split; [by apply Forall_app|].
      rewrite Hrun, fmap_app, bind_cons, !app_assoc. done.
    + right. split; [done|].
      destruct IH as (Hk & Horder & Hp & Htake & Hpre & Hrun).
      assert (Hc : length outs_b = c).
      { unfold outs_b. rewrite length_outcomes. unfold batch.
        rewrite length_take, length_drop.
        destruct (decide (n + c < length messages)%nat); [lia|].
        rewrite drop_ge in Hk by lia. by destruct fuel. }
      exists (S k), i, b, pre, p, post, e. split_and!; try done.
      * rewrite (lookup_app_r outs_b) by lia. rewrite <- Hp. f_equal. lia.
      * rewrite take_app, take_ge by lia.
        replace (S k * c - length outs_b)%nat with (k * c)%nat by lia.
        apply Forall_app. split; [|done].
        eapply Forall_impl; [exact Hful|]. by intros o.
      * eapply Forall_impl; [exact Hpre|]. intros q [r Hq]. exists r.
        cbn beta in *. rewrite (lookup_app_r outs_b) by lia.
        rewrite <- Hq. f_equal. lia.
      * rewrite Hrun. cbn [take]. rewrite bind_cons, !app_assoc. done.
  - (* some promise of the batch is rejected *)
    right. destruct failFast.
    2:{ destruct Hrej. by apply Forall_true. }
    split; [done|].
    destruct (first_thrown_perm outs_b
                (completionOrder (Z.of_nat n) (length batch)))
      as (pre & p & post & e & Horder & Hp & Hpre).
    { unfold outs_b. rewrite length_outcomes. apply completionOrder_perm. }
    { apply not_Forall_Exists in Hrej; [|apply _].
      eapply Exists_impl; [exact Hrej|]. intros o Ho. cbn in *.
      by destruct (is_thrown o). }
    exists 0%nat, n, batch, pre, p, post, e. split_and!; try done.
    + by apply lookup_app_l_Some.
    + eapply Forall_impl; [exact Hpre|]. intros q [r Hq]. exists r.
      by apply lookup_app_l_Some.
    + unfold bind.
      by rewrite (bulk_iteration_rejected n batch results tr pre p post e).
Qed.
End BulkLoop.

(** The whole call, from any earlier trace [tr]: the loop starts at index
    0 with an empty array, and the batches are those of [messages]. *)
Lemma verifyBulk_run fuel messages options tr :
  1 ≤ bulk_concurrency options →
  (length messages < fuel)%nat →
  let c := Z.to_nat (bulk_concurrency options) in
  let failFast := bulk_failFast options in
  let outs := outcomes coreService (sent tr) messages in
  let bs := batches c messages in
  (Forall (fun o => rejects failFast o = false) outs
   ∧ verifyBulk coreService completionOrder fuel messages options tr
     = (Normal (Some ∘ bulk_response <$> outs),
        tr ++ (bs ≫= batch_trace completionOrder)))
  ∨ (failFast = true
     ∧ ∃ k i b pre p post e,
         bs !! k = Some (i, b)
         ∧ completionOrder (Z.of_nat i) (length b) = pre ++ p :: post
         ∧ outs !! (i + p)%nat = Some (Thrown e)
         ∧ Forall (fun o => is_thrown o = false) (take i outs)
         ∧ Forall (fun q =>
                     ∃ r, outs !! (i + q)%nat = Some (Returned r)) pre
         ∧ verifyBulk coreService completionOrder fuel messages options tr
           = (Throw e,
              tr ++ (take k bs ≫= batch_trace completionOrder)
                 ++ (EvSend <$> b) ++ settle_events i (pre ++ [p]))).
Proof.
  intros Hc Hfuel. cbn zeta. unfold verifyBulk, batches.
  pose proof (bulk_loop_run messages (bulk_concurrency options) Hc
                (bulk_failFast options) fuel 0 [] tr) as Hrun.
  cbn zeta in Hrun. rewrite drop_0 in Hrun.
  rewrite (batches_from_fuel fuel (length messages)) in Hrun by lia.
  destruct Hrun as [Hrun|(Hff & k & i & b & pre & p & post & e & Hrun)];
    [done|lia|by left|].
  right. split; [done|].
  destruct Hrun as (Hk & Horder & Hp & Htake & Hpre & Hrun).
  pose proof Hk as Hi.
  apply batches_from_lookup in Hi as (Hi & _ & _); [|lia].
  cbn in Hi. rewrite <- Hi in *.
  exists k, i, b, pre, p, post, e. done.
Qed.

Lemma settle_in_order_no_promise {A} label order
    (values : list (option A)) tr :
  settle_in_order label [] order values tr = (Normal values, tr).
Proof.
  induction order as [|p order IH]; [done|].
  cbn [settle_in_order]. by rewrite lookup_nil.
Qed.

(** A concurrency of 0 never advances the index: on a non-empty input the
    loop runs empty batches for ever.  The properties below are about a
    concurrency of at least 1. *)
Lemma verifyBulk_zero_concurrency fuel messages options tr :
  bulk_concurrency options = 0 →
  messages ≠ [] →
  (verifyBulk coreService completionOrder fuel messages options tr).1 = Hang.
Proof.
  intros Hc Hne. unfold verifyBulk. rewrite Hc.
  generalize (@nil (option ISmsResponse)) as results.
  induction fuel as [|fuel IH]; intros results; [done|].
  cbn [bulk_loop].
  destruct (Z.ltb_spec 0 (Z.of_nat (length messages))) as [_|Hlen].
  2:{ destruct messages; [done|simpl in Hlen; lia]. }
  assert (Hbatch : slice messages 0 (0 + 0) = []).
  { unfold slice. cbn. by rewrite !Z.min_l by lia. }
  rewrite Hbatch. unfold bind at 1.
  assert (Hiter : bulk_iteration coreService completionOrder
                    (bulk_failFast options) 0 [] results tr
                  = (Normal results, tr)).
  { unfold bulk_iteration, bind, try_catch, Promise_all, bind. cbn.
    by rewrite settle_in_order_no_promise. }
  rewrite Hiter. apply IH.
Qed.

(** C1. With [failFast] unset or false and a concurrency of at least 1,
    [verifyBulk] returns an array with exactly one response per input
    message, and the response at index [i] is the outcome of sending the
    message at index [i] (the response the send returned, or the captured
    exception), in whatever order the sends of a batch complete. *)
Theorem verifyBulk_preserves_order fuel messages options tr :
  1 ≤ bulk_concurrency options →
  bulk_failFast options = false →
  (length messages < fuel)%nat →
  ∃ results tr',
    verifyBulk coreService completionOrder fuel messages options tr
    = (Normal results, tr')
    ∧ length results = length messages
    ∧ ∀ i m, messages !! i = Some m →
        results !! i
        = Some (Some (bulk_response
                        (core_verify coreService
                           (sent tr ++ take i messages) m))).
Proof.
  intros Hc Hff Hfuel.
  destruct (verifyBulk_run fuel messages options tr Hc Hfuel)
    as [[_ Hrun]|[Hff' _]]; [|congruence].
  eexists _, _. split; [exact Hrun|]. split.
  - by rewrite length_fmap, length_outcomes.
  - intros i m Hm.
    by rewrite list_lookup_fmap, (lookup_outcomes _ _ _ _ _ Hm).
Qed.

(** C4, as amended.  With [failFast] unset or false, a send that throws
    does not make [verifyBulk] throw: the call returns normally and the
    slot of that message holds a response with [success = false].  Its
    [error] is the message of the exception when the exception is an
    [Error], and the string conversion of the thrown value otherwise,
    whatever message that value carries.  Its [errorCode] is the code of
    the exception when the exception is an [SmsException], and
    UNKNOWN_ERROR otherwise, whatever code the exception carries; so it
    is the code the exception carries, or UNKNOWN_ERROR when it carries
    none, for an [SmsException] and for an exception without code
    only. *)
Theorem verifyBulk_captures_exception fuel messages options tr i m e :
  1 ≤ bulk_concurrency options →
  bulk_failFast options = false →
  (length messages < fuel)%nat →
  messages !! i = Some m →
  core_verify coreService (sent tr ++ take i messages) m = Thrown e →
  ∃ results tr' response,
    verifyBulk coreService completionOrder fuel messages options tr
    = (Normal results, tr')
    ∧ results !! i = Some (Some response)
    ∧ success response = false
    ∧ messageId response = None
    ∧ error response
      = Some (match e with
              | SmsException message _ => message
              | JsError message _ => message
              | JsNonError repr _ _ => repr
              end)
    ∧ errorCode response
      = Some (match e with
              | SmsException _ _code => _code
              | JsError _ _ => "UNKNOWN_ERROR"
              | JsNonError _ _ _ => "UNKNOWN_ERROR"
              end)
    ∧ (instanceof_Error e = true → error response = carried_message e)
    ∧ (instanceof_SmsException e = true ∨ thrown_code e = None →
       errorCode response = Some (default "UNKNOWN_ERROR" (thrown_code e))).
Proof.
  intros Hc Hff Hfuel Hm He.
  destruct (verifyBulk_run fuel messages options tr Hc Hfuel)
    as [[_ Hrun]|[Hff' _]]; [|congruence].
  eexists _, _, _. split; [exact Hrun|]. split.
  - rewrite list_lookup_fmap, (lookup_outcomes _ _ _ _ _ Hm), He. done.
  - destruct e as [message _code|message code|repr message code]; cbn;
      split_and!; try done.
    + by intros [?| ->].
    + by intros [?| ->].
Qed.


Lemma batches_sizes {A} size (l : list A) k i b :
  (1 ≤ size)%nat →
  batches size l !! k = Some (i, b) →
  (0 < length b ≤ size)%nat
  ∧ ((S k < length (batches size l))%nat → length b = size).
Proof.
  intros Hsize Hk.
  pose proof Hk as (-> & -> & Hne)%batches_lookup; [|done].
  split.
  - split; [by destruct (take _ _); [|simpl; lia]|].
    rewrite length_take. lia.
  - intros [[i' b'] Hk']%lookup_lt_is_Some_2.
    apply batches_lookup in Hk' as (-> & -> & Hne'); [|done].
    rewrite length_take, length_drop.
    destruct (decide (S k * size < length l)%nat); [lia|].
    destruct Hne'. by rewrite drop_ge, take_nil by lia.
Qed.

(** C3, as amended.  In fail-fast mode with a concurrency of at least
    1, if a send throws then [verifyBulk] throws, and returns no array.
    The exception is the one a send of batch [k] threw, where [k] is the
    first batch with a throwing send and the exception is the first
    rejection of that batch to arrive; it is the exception of the send
    at hand when no other send of the batches up to [k] throws.  The
    core service has been invoked for the messages of the batches up to
    [k] and for no message of a later batch. *)
Theorem verifyBulk_failFast_throws fuel messages options tr j0 m0 e0 :
  1 ≤ bulk_concurrency options →
  bulk_failFast options = true →
  (length messages < fuel)%nat →
  messages !! j0 = Some m0 →
  core_verify coreService (sent tr ++ take j0 messages) m0 = Thrown e0 →
  let bs := batches (Z.to_nat (bulk_concurrency options)) messages in
  ∃ k i b pre p post m e tr',
    verifyBulk coreService completionOrder fuel messages options tr
    = (Throw e, tr')
    ∧ bs !! k = Some (i, b)
    ∧ b !! p = Some m
    ∧ messages !! (i + p)%nat = Some m
    ∧ core_verify coreService (sent tr ++ take (i + p) messages) m = Thrown e
    ∧ (∀ j m', (j < i)%nat → messages !! j = Some m' →
         is_thrown (core_verify coreService
                      (sent tr ++ take j messages) m') = false)
    ∧ completionOrder (Z.of_nat i) (length b) = pre ++ p :: post
    ∧ Forall (fun q => ∃ m' r,
                messages !! (i + q)%nat = Some m'
                ∧ core_verify coreService
                    (sent tr ++ take (i + q) messages) m' = Returned r)
             pre
    ∧ sent tr' = sent tr ++ concat (snd <$> take (S k) bs)
    ∧ ((∀ j m' e', messages !! j = Some m' →
          (j < i + length b)%nat →
          core_verify coreService (sent tr ++ take j messages) m'
          = Thrown e' →
          j = j0) →
       e = e0).
Proof.
  intros Hc Hff Hfuel Hm0 He0. cbn zeta.
  destruct (verifyBulk_run fuel messages options tr Hc Hfuel)
    as [[Hful _]|(_ & k & i & b & pre & p & post & e & Hrun)].
  { eapply Forall_lookup_1 in Hful;
      [|by apply (lookup_outcomes _ _ _ _ _ Hm0)].
    rewrite He0, Hff in Hful. done. }
  destruct Hrun as (Hk & Horder & Hp & Htake & Hpre & Hrun).
  destruct (lookup_lt_is_Some_2 messages (i + p)) as [m Hm].
  { apply lookup_lt_Some in Hp. by rewrite length_outcomes in Hp. }
  assert (Hpb : (p < length b)%nat).
  { assert (p ∈ completionOrder (Z.of_nat i) (length b)) as Hin
      by (rewrite Horder, elem_of_app, elem_of_cons; tauto).
    rewrite completionOrder_perm, elem_of_seq in Hin. lia. }
  pose proof Hk as (Hi & Hb & _)%batches_lookup; [|lia].
  exists k, i, b, pre, p, post, m, e. eexists.
  split; [exact Hrun|]. split_and!; try done.
  - rewrite Hb, lookup_take_lt, lookup_drop; [done|].
    rewrite Hb, length_take in Hpb. lia.
  - rewrite (lookup_outcomes _ _ _ _ _ Hm) in Hp. congruence.
  - intros j m' Hj Hm'.
    eapply (Forall_lookup_1 _ _ j) in Htake; [exact Htake|].
    rewrite lookup_take_lt by done. by apply lookup_outcomes.
  - eapply Forall_impl; [exact Hpre|]. intros q [r Hq]. cbn beta in *.
    destruct (lookup_lt_is_Some_2 messages (i + q)) as [m' Hm'].
    { apply lookup_lt_Some in Hq. by rewrite length_outcomes in Hq. }
    exists m', r. split; [done|].
    rewrite (lookup_outcomes _ _ _ _ _ Hm') in Hq. congruence.
  - rewrite !sent_app, sent_batch_traces, sent_sends, sent_settle_events.
    rewrite app_nil_r. f_equal.
    rewrite (take_S_r _ _ _ Hk), fmap_app, concat_app. cbn.
    by rewrite app_nil_r.
  - intros Honly.
    rewrite (lookup_outcomes _ _ _ _ _ Hm) in Hp.
    assert (He : core_verify coreService
                   (sent tr ++ take (i + p) messages) m = Thrown e)
      by congruence.
    assert (Hlt : (i + p < i + length b)%nat) by lia.
    pose proof (Honly _ _ _ Hm Hlt He) as Hj. subst j0. congruence.
Qed.

(** C2, as amended.  With a concurrency [c] of at least 1, the messages
    are cut into consecutive batches of [c] messages, the last one
    possibly smaller.  The batches run one after the other: the trace is
    made, batch after batch, of the sends of all the messages of the
    batch followed by the settlements of its promises.  When the call
    returns normally, which it always does unless [failFast] is set,
    every batch is run in full and the core service has been invoked
    exactly once per message, in order.  When it throws, the batches up
    to the one of the exception were started and no other, so that every
    message was sent at most once. *)
Theorem verifyBulk_batches fuel messages options tr :
  1 ≤ bulk_concurrency options →
  (length messages < fuel)%nat →
  let c := Z.to_nat (bulk_concurrency options) in
  let bs := batches c messages in
  concat (snd <$> bs) = messages
  ∧ (∀ k i b, bs !! k = Some (i, b) →
       i = (k * c)%nat ∧ b = take c (drop i messages)
       ∧ (0 < length b ≤ c)%nat
       ∧ ((S k < length bs)%nat → length b = c))
  ∧ ∃ r tr',
      verifyBulk coreService completionOrder fuel messages options tr
      = (r, tr')
      ∧ ((∃ results, r = Normal results)
         ∧ tr' = tr ++ (bs ≫= batch_trace completionOrder)
         ∧ sent tr' = sent tr ++ messages
         ∨ bulk_failFast options = true
           ∧ ∃ e k i b pre p post,
               r = Throw e
               ∧ bs !! k = Some (i, b)
               ∧ completionOrder (Z.of_nat i) (length b) = pre ++ p :: post
               ∧ tr' = tr ++ (take k bs ≫= batch_trace completionOrder)
                          ++ (EvSend <$> b) ++ settle_events i (pre ++ [p])
               ∧ sent tr' = sent tr ++ concat (snd <$> take (S k) bs)).
Proof.
  intros Hc Hfuel c bs.
  assert (Hsize : (1 ≤ c)%nat) by (unfold c; lia).
  assert (Hconcat : concat (snd <$> bs) = messages)
    by (by apply batches_concat).
  split; [done|]. split.
  { intros k i b Hk.
    pose proof Hk as (Hi & Hb & _)%batches_lookup; [|done].
    pose proof Hk as (Hlen & Hfull)%batches_sizes; done. }
  destruct (verifyBulk_run fuel messages options tr Hc Hfuel)
    as [[_ Hrun]|(Hff & k & i & b & pre & p & post & e & Hrun)].
  - eexists _, _. split; [exact Hrun|]. left.
    split; [by eexists|]. split; [done|].
    rewrite sent_app, sent_batch_traces. by fold c bs; rewrite Hconcat.
  - destruct Hrun as (Hk & Horder & _ & _ & _ & Hrun).
    eexists _, _. split; [exact Hrun|]. right. split; [done|].
    exists e, k, i, b, pre, p, post. split_and!; try done.
    rewrite !sent_app, sent_batch_traces, sent_sends, sent_settle_events.
    rewrite app_nil_r. f_equal. fold c bs.
    rewrite (take_S_r bs k (i, b)), fmap_app, concat_app by done. cbn.
    by rewrite app_nil_r.
Qed.

End BulkDispatcher.

(** ** The retrying sender *)

Section RetryingSender.

Variable coreService : CoreSmsService.
Variables (phoneNumber code : string) (driver : option DriverType).
Variable maxRetries : Z.

Lemma retry_loop_returns fuel attempt lastError tr response :
  attempt ≤ maxRetries →
  core_verify coreService (sent tr) (otp_message phoneNumber code driver)
  = Returned response →
  retry_loop coreService (S fuel) phoneNumber code maxRetries driver
    attempt lastError tr
  = (Normal response, tr ++ [EvSend (otp_message phoneNumber code driver)]).
Proof.
  intros Ha Hr. cbn [retry_loop].
  destruct (Z.leb_spec attempt maxRetries); [|lia].
  unfold bind, try_catch. rewrite verify_run, Hr.
  by destruct (success response).
Qed.

Lemma retry_loop_throws fuel attempt lastError tr e :
  attempt ≤ maxRetries →
  core_verify coreService (sent tr) (otp_message phoneNumber code driver)
  = Thrown e →
  retry_loop coreService (S fuel) phoneNumber code maxRetries driver
    attempt lastError tr
  = retry_loop coreService fuel phoneNumber code maxRetries driver
      (attempt + 1) (Some (as_Error e))
      (tr ++ EvSend (otp_message phoneNumber code driver)
            :: (if attempt <? maxRetries
                then [EvDelay (2 ^ attempt * 1000)] else [])).
Proof.
  intros Ha He. cbn [retry_loop].
  destruct (Z.leb_spec attempt maxRetries); [|lia].
  unfold bind, try_catch. rewrite verify_run, He.
  unfold delay, emit, ret.
  destruct (attempt <? maxRetries).
  - by rewrite <- app_assoc.
  - done.
Qed.

Lemma retry_loop_exhausted fuel attempt lastError tr :
  maxRetries < attempt →
  retry_loop coreService (S fuel) phoneNumber code maxRetries driver
    attempt lastError tr
  = (Throw (default (JsError "All retry attempts failed" None) lastError),
     tr).
Proof.
  intros Ha. cbn [retry_loop].
  destruct (Z.leb_spec attempt maxRetries); [lia|]. done.
Qed.

(** [k] attempts in a row that throw and are not the last one: each is
    followed by its backoff delay. *)
Lemma retry_loop_backoff fuel k (a : nat) lastError tr errors :
  Z.of_nat (a + k) ≤ maxRetries →
  (∀ j, (j < k)%nat →
     core_verify coreService
       (sent tr ++ replicate j (otp_message phoneNumber code driver))
       (otp_message phoneNumber code driver)
     = Thrown (errors j)) →
  retry_loop coreService (k + fuel) phoneNumber code maxRetries driver
    (Z.of_nat a) lastError tr
  = retry_loop coreService fuel phoneNumber code maxRetries driver
      (Z.of_nat (a + k))
      (match k with
       | O => lastError
       | S k' => Some (as_Error (errors k'))
       end)
      (tr ++ (seq a k ≫= fun j =>
                [EvSend (otp_message phoneNumber code driver);
                 EvDelay (2 ^ Z.of_nat j * 1000)])).
Proof.
  revert a lastError tr errors.
  induction k as [|k IH]; intros a lastError tr errors Ha Herr.
  - cbn. by rewrite Nat.add_0_r, app_nil_r.
  - cbn [Nat.add]. rewrite (retry_loop_throws _ _ _ _ (errors 0%nat)).
    2: lia.
    2:{ rewrite <- (Herr 0%nat) by lia. cbn. by rewrite app_nil_r. }
    destruct (Z.ltb_spec (Z.of_nat a) maxRetries); [|lia].
    replace (Z.of_nat a + 1) with (Z.of_nat (S a)) by lia.
    rewrite (IH (S a) _ _ (fun j => errors (S j))).
    + replace (S a + k)%nat with (a + S k)%nat by lia.
      f_equal.
      * by destruct k.
      * cbn [seq]. rewrite bind_cons. by rewrite <- app_assoc.
    + lia.
    + intros j Hj. rewrite <- (Herr (S j)) by lia.
      rewrite sent_app. cbn. by rewrite <- app_assoc.
Qed.


Lemma sent_backoff a k :
  sent (seq a k ≫= fun j =>
          [EvSend (otp_message phoneNumber code driver);
           EvDelay (2 ^ Z.of_nat j * 1000)])
  = replicate k (otp_message phoneNumber code driver).
Proof.
  revert a. induction k as [|k IH]; intros a; [done|].
  cbn [seq]. rewrite bind_cons, sent_app, IH. done.
Qed.

Lemma delays_app tr1 tr2 : delays (tr1 ++ tr2) = delays tr1 ++ delays tr2.
Proof. induction tr1 as [|[] tr1 IH]; simpl; congruence. Qed.

Lemma delays_backoff a k :
  delays (seq a k ≫= fun j =>
            [EvSend (otp_message phoneNumber code driver);
             EvDelay (2 ^ Z.of_nat j * 1000)])
  = (fun j => 2 ^ Z.of_nat j * 1000) <$> seq a k.
Proof.
  revert a. induction k as [|k IH]; intros a; [done|].
  cbn [seq]. rewrite bind_cons, delays_app, IH. done.
Qed.

End RetryingSender.

Section RetryContract.

Variable coreService : CoreSmsService.

(** C6. With [maxRetries] at least 1, a response the send returns is
    returned at once, whether it reports success or not.  On the first
    attempt, the core service has then been invoked exactly once and no
    delay has elapsed: an unsuccessful response is never retried.  On a
    later attempt, only the attempts that threw before it were followed
    by their delay. *)
Theorem sendOtpWithRetry_returns_response fuel phoneNumber code maxRetries
    driver tr :
  let message := otp_message phoneNumber code driver in
  1 ≤ default 3 maxRetries →
  (∀ response,
     (0 < fuel)%nat →
     core_verify coreService (sent tr) message = Returned response →
     ∃ tr',
       sendOtpWithRetry coreService fuel phoneNumber code maxRetries driver tr
       = (Normal response, tr')
       ∧ tr' = tr ++ [EvSend message]
       ∧ sent tr' = sent tr ++ [message]
       ∧ delays tr' = delays tr)
  ∧ (∀ k errors response,
       Z.of_nat k < default 3 maxRetries →
       (k < fuel)%nat →
       (∀ j, (j < k)%nat →
          core_verify coreService (sent tr ++ replicate j message) message
          = Thrown (errors j)) →
       core_verify coreService (sent tr ++ replicate k message) message
       = Returned response →
       sendOtpWithRetry coreService fuel phoneNumber code maxRetries driver tr
       = (Normal response, tr ++ backoff_trace message k ++ [EvSend message])).
Proof.
  intros message Hmax.
  assert (Hany : ∀ k errors response,
    Z.of_nat k < default 3 maxRetries →
    (k < fuel)%nat →
    (∀ j, (j < k)%nat →
       core_verify coreService (sent tr ++ replicate j message) message
       = Thrown (errors j)) →
    core_verify coreService (sent tr ++ replicate k message) message
    = Returned response →
    sendOtpWithRetry coreService fuel phoneNumber code maxRetries driver tr
    = (Normal response, tr ++ backoff_trace message k ++ [EvSend message])).
  { intros k errors response Hk Hfuel Herr Hr. unfold sendOtpWithRetry.
    destruct (Nat.le_exists_sub (S k) fuel) as (f & -> & _); [lia|].
    replace (f + S k)%nat with (k + S f)%nat by lia.
    rewrite (retry_loop_backoff _ _ _ _ _ _ _ 1%nat _ _ errors)
      by (done || lia).
    rewrite (retry_loop_returns _ _ _ _ _ _ _ _ _ response).
    - by rewrite <- app_assoc.
    - lia.
    - by rewrite sent_app, sent_backoff. }
  split; [|exact Hany].
  intros response Hfuel Hr. eexists. split.
  - apply (Hany 0%nat (fun _ => JsError "" None) response); [lia|done|lia|].
    cbn. by rewrite app_nil_r.
  - cbn. split; [done|]. split.
    + by rewrite sent_app.
    + by rewrite delays_app, app_nil_r.
Qed.

(** C7. With [maxRetries] at least 1, if the send throws on every attempt
    then exactly [maxRetries] attempts are made, a delay of
    [2^attempt * 1000] follows each attempt but the last (attempts
    numbered from 1), and the call throws the error recorded on the last
    attempt. *)
Theorem sendOtpWithRetry_exhausts_retries fuel phoneNumber code maxRetries
    driver tr errors :
  let message := otp_message phoneNumber code driver in
  let n := Z.to_nat (default 3 maxRetries) in
  1 ≤ default 3 maxRetries →
  (n < fuel)%nat →
  (∀ j, (j < n)%nat →
     core_verify coreService (sent tr ++ replicate j message) message
     = Thrown (errors j)) →
  ∃ tr',
    sendOtpWithRetry coreService fuel phoneNumber code maxRetries driver tr
    = (Throw (as_Error (errors (n - 1)%nat)), tr')
    ∧ tr' = tr ++ backoff_trace message (n - 1) ++ [EvSend message]
    ∧ sent tr' = sent tr ++ replicate n message
    ∧ delays tr'
      = delays tr ++ ((fun attempt => 2 ^ Z.of_nat attempt * 1000)
                        <$> seq 1 (n - 1)).
Proof.
  intros message n Hmax Hfuel Herr. eexists. split; [|split; [done|]].
  - unfold sendOtpWithRetry.
    destruct (Nat.le_exists_sub (S n) fuel) as (f & -> & _); [lia|].
    replace (f + S n)%nat with ((n - 1) + S (S f))%nat by lia.
    rewrite (retry_loop_backoff _ _ _ _ _ _ _ 1%nat _ _ errors).
    2: lia.
    2:{ intros j Hj. apply Herr. lia. }
    rewrite (retry_loop_throws _ _ _ _ _ _ _ _ _ (errors (n - 1)%nat)).
    2: lia.
    2:{ rewrite sent_app, sent_backoff. apply Herr. lia. }
    destruct (Z.ltb_spec (Z.of_nat (1 + (n - 1))) (default 3 maxRetries));
      [lia|].
    rewrite retry_loop_exhausted by lia.
    cbn [default]. by rewrite <- app_assoc. 
  - split.
    + rewrite !sent_app. unfold backoff_trace, message.
      rewrite sent_backoff.
      cbn. f_equal.
      replace n with (S (n - 1)) at 2 by lia.
      by rewrite replicate_S_end.
    + rewrite !delays_app. unfold backoff_trace, message.
      rewrite delays_backoff.
      cbn. by rewrite app_nil_r.
Qed.

End RetryContract.

(** ** The fallback sender *)

Section FallbackSender.

Variable coreService : CoreSmsService.
Variables (phoneNumber template : string) (tokens : list (string * string)).

Lemma fallback_loop_unavailable driver rest lastResponse tr :
  isDriverAvailable coreService driver = false →
  fallback_loop coreService phoneNumber template tokens (driver :: rest)
    lastResponse tr
  = fallback_loop coreService phoneNumber template tokens rest
      lastResponse tr.
Proof.
  intros Hd. cbn [fallback_loop]. unfold bind, try_catch. by rewrite Hd.
Qed.

Lemma fallback_loop_available driver rest lastResponse tr :
  isDriverAvailable coreService driver = true →
  fallback_loop coreService phoneNumber template tokens (driver :: rest)
    lastResponse tr
  = let message := fallback_message phoneNumber template tokens driver in
    let tr' := tr ++ [EvSend message] in
    match core_verify coreService (sent tr) message with
    | Returned response =>
        if success response then (Normal response, tr')
        else fallback_loop coreService phoneNumber template tokens rest
               (Some response) tr'
    | Thrown _ =>
        fallback_loop coreService phoneNumber template tokens rest
          lastResponse tr'
    end.
Proof.
  intros Hd. cbn [fallback_loop]. unfold bind, try_catch.
  rewrite Hd. cbn [negb]. unfold bind. rewrite verify_run.
  destruct (core_verify _ _ _) as [response|e]; [|done].
  by destruct (success response).
Qed.

Lemma fallback_messages_cons driver rest :
  fallback_messages coreService phoneNumber template tokens (driver :: rest)
  = (if isDriverAvailable coreService driver
     then [fallback_message phoneNumber template tokens driver] else [])
    ++ fallback_messages coreService phoneNumber template tokens rest.
Proof.
  unfold fallback_messages. rewrite filter_cons.
  destruct (isDriverAvailable coreService driver) eqn:Hd.
  - by rewrite decide_True by done.
  - by rewrite decide_False by done.
Qed.

(** No candidate succeeds: every available candidate is tried and the last
    response obtained, if any, is returned. *)
Lemma fallback_loop_exhausted drivers lastResponse tr :
  Forall (fun o => is_success o = false)
         (outcomes coreService (sent tr)
            (fallback_messages coreService phoneNumber template tokens
               drivers)) →
  fallback_loop coreService phoneNumber template tokens drivers
    lastResponse tr
  = (Normal (default all_failed
               (foldl remember lastResponse
                  (outcomes coreService (sent tr)
                     (fallback_messages coreService phoneNumber template
                        tokens drivers)))),
     tr ++ (EvSend <$> fallback_messages coreService phoneNumber template
                         tokens drivers)).
Proof.
  revert lastResponse tr.
  induction drivers as [|driver rest IH]; intros lastResponse tr Hnone.
  - cbn. by rewrite app_nil_r.
  - rewrite fallback_messages_cons in *.
    destruct (isDriverAvailable coreService driver) eqn:Hd.
    + rewrite fallback_loop_available by done. cbn zeta.
      cbn [app outcomes] in *.
      apply Forall_cons in Hnone as [Ho Hnone].
      destruct (core_verify _ _ _) as [response|e]; cbn in Ho.
      * rewrite Ho, IH.
        -- rewrite sent_app. csimpl. by rewrite <- app_assoc.
        -- rewrite sent_app. exact Hnone.
      * rewrite IH.
        -- rewrite sent_app. csimpl. by rewrite <- app_assoc.
        -- rewrite sent_app. exact Hnone.
    + rewrite fallback_loop_unavailable by done. by apply IH.
Qed.

(** The [k]-th available candidate is the first to succeed: its response
    is returned and no later candidate is tried. *)
Lemma fallback_loop_success drivers lastResponse tr k response :
  outcomes coreService (sent tr)
    (fallback_messages coreService phoneNumber template tokens drivers) !! k
  = Some (Returned response) →
  success response = true →
  Forall (fun o => is_success o = false)
         (take k (outcomes coreService (sent tr)
                    (fallback_messages coreService phoneNumber template
                       tokens drivers))) →
  fallback_loop coreService phoneNumber template tokens drivers
    lastResponse tr
  = (Normal response,
     tr ++ (EvSend <$> take (S k)
                         (fallback_messages coreService phoneNumber
                            template tokens drivers))).
Proof.
  revert lastResponse tr k.
  induction drivers as [|driver rest IH];
    intros lastResponse tr k Hk Hsucc Hpre; [done|].
  rewrite fallback_messages_cons in *.
  destruct (isDriverAvailable coreService driver) eqn:Hd.
  - rewrite fallback_loop_available by done. cbn zeta.
    cbn [app outcomes] in *.
    destruct k as [|k].
    + cbn in Hk. simplify_eq. rewrite Hk, Hsucc. done.
    + cbn [lookup list_lookup take] in *.
      apply Forall_cons in Hpre as [Ho Hpre].
      destruct (core_verify _ _ _) as [response'|e]; cbn in Ho.
      * rewrite Ho, (IH _ _ k);
          [|rewrite sent_app; exact Hk|done|rewrite sent_app; exact Hpre].
        csimpl. by rewrite <- app_assoc.
      * rewrite (IH _ _ k);
          [|rewrite sent_app; exact Hk|done|rewrite sent_app; exact Hpre].
        csimpl. by rewrite <- app_assoc.
  - rewrite fallback_loop_unavailable by done. by apply IH.
Qed.

Lemma foldl_remember lastResponse outs :
  foldl remember lastResponse outs
  = match last (returned outs) with
    | Some response => Some response
    | None => lastResponse
    end.
Proof.
  revert lastResponse.
  induction outs as [|[response|e] outs IH]; intros lastResponse; [done| |].
  - cbn [foldl remember]. rewrite IH.
    change (returned (Returned response :: outs))
      with (response :: returned outs).
    rewrite last_cons. by destruct (last (returned outs)).
  - cbn [foldl remember]. by rewrite IH.
Qed.

Lemma returned_unsuccessful outs response :
  Forall (fun o => is_success o = false) outs →
  response ∈ returned outs →
  success response = false.
Proof.
  intros Hnone Hin. unfold returned in Hin.
  apply list_elem_of_omap in Hin as (o & Ho & Hr).
  eapply Forall_forall in Hnone; [|exact Ho].
  destruct o as [r|e]; [|done]. by simplify_eq.
Qed.

Lemma returned_thrown outs :
  Forall (fun o => is_thrown o = true) outs → returned outs = [].
Proof.
  induction 1 as [|[r|e] outs Ho _ IH]; [done|done|].
  exact IH.
Qed.

(** The candidate list: both entries are always present. *)
Lemma fallback_drivers_eq primaryDriver fallbackDriver :
  fallback_drivers coreService primaryDriver fallbackDriver
  = [ default (getDefaultDriver coreService) primaryDriver;
      default
        (default MOCK
           (head (filter (fun d => Some d ≠ primaryDriver)
                    (getAvailableDrivers coreService))))
        fallbackDriver ].
Proof.
  unfold fallback_drivers, getAlternativeDriver, filter_Boolean, js_or.
  destruct primaryDriver as [[]|], fallbackDriver as [[]|]; cbn;
    try done;
    try (by destruct (getDefaultDriver coreService));
    destruct (head _) as [[]|]; cbn;
    try done; by destruct (getDefaultDriver coreService).
Qed.

(** C10. The candidate list of [sendWithFallback] always has exactly two
    entries: the primary driver, or the configured default when none is
    given; then the fallback driver, or when none is given the first
    available driver other than the primary, or MOCK when there is none.
    In particular, without a fallback driver and with no available driver
    other than the primary, the second candidate is MOCK.  The list is
    not de-duplicated: the same driver can be both entries. *)
Theorem fallback_drivers_two_candidates primaryDriver fallbackDriver :
  fallback_drivers coreService primaryDriver fallbackDriver
  = [ default (getDefaultDriver coreService) primaryDriver;
      default
        (default MOCK
           (head (filter (fun d => Some d ≠ primaryDriver)
                    (getAvailableDrivers coreService))))
        fallbackDriver ]
  ∧ length (fallback_drivers coreService primaryDriver fallbackDriver) = 2%nat
  ∧ (fallbackDriver = None →
     (∀ d, d ∈ getAvailableDrivers coreService →
           Some d = primaryDriver) →
     fallback_drivers coreService primaryDriver fallbackDriver
     = [default (getDefaultDriver coreService) primaryDriver; MOCK])
  ∧ (∀ d, fallback_drivers coreService (Some d) (Some d) = [d; d])
  ∧ (primaryDriver = None → fallbackDriver = None →
     head (getAvailableDrivers coreService)
     = Some (getDefaultDriver coreService) →
     fallback_drivers coreService primaryDriver fallbackDriver
     = [getDefaultDriver coreService; getDefaultDriver coreService]).
Proof.
  split_and!.
  - apply fallback_drivers_eq.
  - by rewrite fallback_drivers_eq.
  - intros -> Honly. rewrite fallback_drivers_eq. cbn. do 2 f_equal.
    destruct (filter _ _) as [|d alternatives] eqn:Hfilter; [done|].
    assert (d ∈ filter (fun d => Some d ≠ primaryDriver)
                  (getAvailableDrivers coreService)) as Hd
      by (rewrite Hfilter; left).
    apply list_elem_of_filter in Hd as [Hne Hd]. by apply Honly in Hd.
  - intros d. by rewrite fallback_drivers_eq.
  - intros -> -> Hhead. rewrite fallback_drivers_eq. cbn. do 2 f_equal.
    destruct (getAvailableDrivers coreService) as [|d available];
      [done|].
    cbn in Hhead. simplify_eq. by rewrite filter_cons_True.
Qed.

(** Every run ends normally, after the sends for some first available
    candidates. *)
Lemma sendWithFallback_run primaryDriver fallbackDriver tr :
  let messages :=
    fallback_messages coreService phoneNumber template tokens
      (fallback_drivers coreService primaryDriver fallbackDriver) in
  ∃ response n,
    sendWithFallback coreService phoneNumber template tokens
      primaryDriver fallbackDriver tr
    = (Normal response, tr ++ (EvSend <$> take n messages)).
Proof.
  intros messages. unfold sendWithFallback. fold messages.
  destruct (list_find (fun o => is_success o = true)
              (outcomes coreService (sent tr) messages))
    as [[k o]|] eqn:Hfind.
  - apply list_find_Some in Hfind as (Hk & Ho & Hpre).
    destruct o as [response|e]; [|done]. cbn in Ho.
    exists response, (S k).
    apply fallback_loop_success; [done|done|].
    apply Forall_forall. intros o Hin.
    apply list_elem_of_lookup in Hin as [j Hj].
    apply lookup_take_Some in Hj as [Hj Hlt].
    specialize (Hpre j o Hj Hlt). by destruct (is_success o).
  - apply list_find_None in Hfind.
    eexists _, (length messages).
    rewrite take_ge by done.
    apply fallback_loop_exhausted.
    eapply Forall_impl; [exact Hfind|]. intros o Ho. cbn in Ho.
    by destruct (is_success o).
Qed.

(** C8. [sendWithFallback] tries its candidates in order and never the
    ones the configuration reports unavailable: the core service is
    invoked for the first messages of the available candidates, in their
    order, and for nothing else.  The first response with
    [success = true] is returned at once, without trying the candidates
    after it.  In particular, with an unavailable primary driver and an
    available fallback driver whose send succeeds, the response of the
    fallback is returned and the core service is invoked for it only. *)
Theorem sendWithFallback_first_success tr :
  (∀ primaryDriver fallbackDriver,
     let messages :=
       fallback_messages coreService phoneNumber template tokens
         (fallback_drivers coreService primaryDriver fallbackDriver) in
     (∃ response n,
        sendWithFallback coreService phoneNumber template tokens
          primaryDriver fallbackDriver tr
        = (Normal response, tr ++ (EvSend <$> take n messages)))
     ∧ (∀ d, isDriverAvailable coreService d = false →
          fallback_message phoneNumber template tokens d ∉ messages)
     ∧ (∀ k response,
          outcomes coreService (sent tr) messages !! k
          = Some (Returned response) →
          success response = true →
          Forall (fun o => is_success o = false)
                 (take k (outcomes coreService (sent tr) messages)) →
          sendWithFallback coreService phoneNumber template tokens
            primaryDriver fallbackDriver tr
          = (Normal response, tr ++ (EvSend <$> take (S k) messages))))
  ∧ (∀ primaryDriver fallbackDriver response,
       isDriverAvailable coreService primaryDriver = false →
       isDriverAvailable coreService fallbackDriver = true →
       core_verify coreService (sent tr)
         (fallback_message phoneNumber template tokens fallbackDriver)
       = Returned response →
       success response = true →
       sendWithFallback coreService phoneNumber template tokens
         (Some primaryDriver) (Some fallbackDriver) tr
       = (Normal response,
          tr ++ [EvSend (fallback_message phoneNumber template tokens
                           fallbackDriver)])).
Proof.
  split.
  - intros primaryDriver fallbackDriver messages. split_and!.
    + apply sendWithFallback_run.
    + intros d Hd Hin. unfold messages, fallback_messages in Hin.
      apply list_elem_of_fmap in Hin as (d' & Heq & Hin).
      apply list_elem_of_filter in Hin as [Hav _].
      unfold fallback_message in Heq. simplify_eq. congruence.
    + intros k response Hk Hsucc Hpre. by apply fallback_loop_success.
  - intros primaryDriver fallbackDriver response Hp Hf Hr Hsucc.
    unfold sendWithFallback. rewrite fallback_drivers_eq.
    cbn [default from_option id].
    rewrite fallback_loop_unavailable by done.
    rewrite fallback_loop_available by done. cbn zeta.
    by rewrite Hr, Hsucc.
Qed.

(** C9. [sendWithFallback] never throws.  When no candidate obtains a
    response with [success = true], every available candidate has been
    tried and the call returns a response with [success = false]: the
    last response a send returned, and only when no send returned a
    response (every candidate unavailable or throwing) the synthetic
    response whose error is "All drivers failed or unavailable", without
    message id and without error code.  In particular, with two
    available candidates that both return an unsuccessful response, the
    second response is returned. *)
Theorem sendWithFallback_last_failure tr :
  (∀ primaryDriver fallbackDriver,
     let messages :=
       fallback_messages coreService phoneNumber template tokens
         (fallback_drivers coreService primaryDriver fallbackDriver) in
     let outs := outcomes coreService (sent tr) messages in
     (∃ response tr',
        sendWithFallback coreService phoneNumber template tokens
          primaryDriver fallbackDriver tr
        = (Normal response, tr'))
     ∧ (Forall (fun o => is_success o = false) outs →
        ∃ response,
          sendWithFallback coreService phoneNumber template tokens
            primaryDriver fallbackDriver tr
          = (Normal response, tr ++ (EvSend <$> messages))
          ∧ response = default all_failed (last (returned outs))
          ∧ success response = false
          ∧ (∀ obtained, last (returned outs) = Some obtained →
               response = obtained)
          ∧ (Forall (fun o => is_thrown o = true) outs →
             response = {| success := false;
                           messageId := None;
                           error := Some "All drivers failed or unavailable";
                           errorCode := None |})))
  ∧ (∀ primaryDriver fallbackDriver response1 response2,
       let message1 :=
         fallback_message phoneNumber template tokens primaryDriver in
       let message2 :=
         fallback_message phoneNumber template tokens fallbackDriver in
       isDriverAvailable coreService primaryDriver = true →
       isDriverAvailable coreService fallbackDriver = true →
       core_verify coreService (sent tr) message1 = Returned response1 →
       success response1 = false →
       core_verify coreService (sent tr ++ [message1]) message2
       = Returned response2 →
       success response2 = false →
       sendWithFallback coreService phoneNumber template tokens
         (Some primaryDriver) (Some fallbackDriver) tr
       = (Normal response2, tr ++ [EvSend message1; EvSend message2])).
Proof.
  split.
  - intros primaryDriver fallbackDriver messages outs.
    destruct (sendWithFallback_run primaryDriver fallbackDriver tr)
      as (response & n & Hrun).
    split; [by eauto|].
    intros Hnone. eexists. split.
    { unfold sendWithFallback.
      rewrite fallback_loop_exhausted by done.
      rewrite foldl_remember. fold messages outs. reflexivity. }
    assert (Hlast : default all_failed
                      match last (returned outs) with
                      | Some response => Some response
                      | None => None
                      end
                    = default all_failed (last (returned outs)))
      by (by destruct (last (returned outs))).
    rewrite Hlast. split_and!.
    + done.
    + destruct (last (returned outs)) as [obtained|] eqn:Hobtained; [|done].
      apply (returned_unsuccessful outs); [done|].
      apply last_Some in Hobtained as [l ->].
      rewrite elem_of_app, list_elem_of_singleton. by right.
    + by intros obtained ->.
    + intros Hthrown. by rewrite returned_thrown.
  - intros primaryDriver fallbackDriver response1 response2
      message1 message2 Hp Hf Hr1 Hs1 Hr2 Hs2.
    unfold sendWithFallback. rewrite fallback_drivers_eq.
    cbn [default from_option id].
    rewrite fallback_loop_available by done. cbn zeta.
    fold message1. rewrite Hr1, Hs1.
    rewrite fallback_loop_available by done. cbn zeta.
    rewrite sent_app. cbn [sent app]. fold message2. rewrite Hr2, Hs2.
    cbn. by rewrite <- app_assoc.
Qed.

End FallbackSender.

(** ** The properties on the sample configuration *)

Lemma latest_first_perm i n : latest_first i n ≡ₚ seq 0 n.
Proof. apply reverse_Permutation. Qed.

(** The scenario of the test suite: two messages, the second without
    recipient, sent as one batch without fail-fast. *)
Lemma verifyBulk_partial_failure :
  verifyBulk sample_core latest_first 3
    [sample_message "+989123456789"; sample_message ""]
    {| concurrency := Some 2; failFast := Some false |} []
  = (Normal [Some (accepted "+989123456789");
             Some (errorResponse_of invalid_recipient)],
     [EvSend (sample_message "+989123456789"); EvSend (sample_message "");
      EvSettle 1; EvSettle 0]).
Proof. reflexivity. Qed.

Lemma verifyBulk_preserves_order_witness :
  let messages :=
    [sample_message "+989123456789"; sample_message "";
     sample_message "+989987654321"] in
  let options := {| concurrency := Some 2; failFast := None |} in
  1 ≤ bulk_concurrency options
  ∧ bulk_failFast options = false
  ∧ (length messages < 4)%nat
  ∧ ∃ results tr',
      verifyBulk sample_core latest_first 4 messages options []
      = (Normal results, tr')
      ∧ length results = length messages
      ∧ ∀ i m, messages !! i = Some m →
          results !! i
          = Some (Some (bulk_response
                          (core_verify sample_core
                             (sent [] ++ take i messages) m))).
Proof.
  intros messages options. split_and!.
  - by vm_compute.
  - reflexivity.
  - simpl; lia.
  - apply (verifyBulk_preserves_order sample_core latest_first
             latest_first_perm 4 messages options []).
    + by vm_compute.
    + reflexivity.
    + simpl; lia.
Defined.

Lemma verifyBulk_batches_witness :
  let messages :=
    [sample_message "+989123456789"; sample_message "";
     sample_message "+989987654321"] in
  let options := {| concurrency := Some 2; failFast := Some true |} in
  let bs := batches 2 messages in
  1 ≤ bulk_concurrency options
  ∧ (length messages < 4)%nat
  ∧ concat (snd <$> bs) = messages
  ∧ ∃ r tr',
      verifyBulk sample_core latest_first 4 messages options [] = (r, tr')
      ∧ ((∃ results, r = Normal results)
         ∧ tr' = [] ++ (bs ≫= batch_trace latest_first)
         ∧ sent tr' = sent [] ++ messages
         ∨ bulk_failFast options = true
           ∧ ∃ e k i b pre p post,
               r = Throw e
               ∧ bs !! k = Some (i, b)
               ∧ latest_first (Z.of_nat i) (length b) = pre ++ p :: post
               ∧ tr' = [] ++ (take k bs ≫= batch_trace latest_first)
                          ++ (EvSend <$> b) ++ settle_events i (pre ++ [p])
               ∧ sent tr' = sent [] ++ concat (snd <$> take (S k) bs)).
Proof.
  intros messages options bs.
  assert (Hc : 1 ≤ bulk_concurrency options) by (by vm_compute).
  assert (Hfuel : (length messages < 4)%nat) by (simpl; lia).
  destruct (verifyBulk_batches sample_core latest_first latest_first_perm
              4 messages options [] Hc Hfuel) as (Hconcat & _ & Hrun).
  split_and!; [exact Hc|exact Hfuel|exact Hconcat|exact Hrun].
Defined.

(** C2, as stated, fails in fail-fast mode: with batches of one message,
    the exception of the first message stops the call, and the second
    message is never sent. *)
Lemma verifyBulk_batches_counterexample :
  let first := sample_message "" in
  let second := sample_message "+989987654321" in
  let options := {| concurrency := Some 1; failFast := Some true |} in
  verifyBulk sample_core latest_first 3 [first; second] options []
  = (Throw invalid_recipient, [EvSend first; EvSettle 0])
  ∧ sent [EvSend first; EvSettle 0] ≠ [first; second]
  ∧ second ∉ sent [EvSend first; EvSettle 0].
Proof.
  intros first second options. split_and!.
  - reflexivity.
  - discriminate.
  - intros Hin. apply list_elem_of_In in Hin. simpl in Hin.
    destruct Hin as [Heq|[]]. discriminate Heq.
Qed.

Lemma verifyBulk_failFast_throws_witness :
  let messages :=
    [sample_message "+989123456789"; sample_message "";
     sample_message "+989987654321"] in
  let options := {| concurrency := Some 2; failFast := Some true |} in
  1 ≤ bulk_concurrency options
  ∧ bulk_failFast options = true
  ∧ (length messages < 4)%nat
  ∧ messages !! 1%nat = Some (sample_message "")
  ∧ core_verify sample_core (sent [] ++ take 1 messages) (sample_message "")
    = Thrown invalid_recipient
  ∧ ∃ tr',
      verifyBulk sample_core latest_first 4 messages options []
      = (Throw invalid_recipient, tr').
Proof.
  intros messages options.
  assert (Hc : 1 ≤ bulk_concurrency options) by (by vm_compute).
  assert (Hff : bulk_failFast options = true) by reflexivity.
  assert (Hfuel : (length messages < 4)%nat) by (simpl; lia).
  assert (Hm : messages !! 1%nat = Some (sample_message ""))
    by reflexivity.
  assert (He : core_verify sample_core (sent [] ++ take 1 messages)
                 (sample_message "") = Thrown invalid_recipient)
    by reflexivity.
  destruct (verifyBulk_failFast_throws sample_core latest_first
              latest_first_perm 4 messages options [] 1%nat
              (sample_message "") invalid_recipient Hc Hff Hfuel Hm He)
    as (k & i & b & pre & p & post & m & e & tr' & Hrun & _ & _ & _ & _ & _
        & _ & _ & _ & Honly).
  split_and!; [exact Hc|exact Hff|exact Hfuel|exact Hm|exact He|].
  exists tr'. rewrite <- Honly; [exact Hrun|].
  intros j m' e' Hm' _ He'.
  destruct j as [|[|[|j]]]; cbn in Hm'; [|reflexivity| |discriminate Hm'].
  - injection Hm' as <-. discriminate He'.
  - injection Hm' as <-. discriminate He'.
Defined.

(** C3, as stated, fails when two sends of one batch throw: the call
    throws the rejection that arrives first, here the one of the second
    message, and not the exception of the first message. *)
Lemma verifyBulk_failFast_throws_counterexample :
  let first := sample_message "+989123456789" in
  let second := sample_message "" in
  let options := {| concurrency := Some 2; failFast := Some true |} in
  [first; second] !! 0%nat = Some first
  ∧ core_verify offline_core (sent [] ++ take 0 [first; second]) first
    = Thrown connection_reset
  ∧ verifyBulk offline_core latest_first 3 [first; second] options []
    = (Throw gateway_fault, [EvSend first; EvSend second; EvSettle 1])
  ∧ gateway_fault ≠ connection_reset.
Proof.
  intros first second options. split_and!.
  - reflexivity.
  - reflexivity.
  - reflexivity.
  - discriminate.
Qed.

Lemma verifyBulk_captures_exception_witness :
  let messages :=
    [sample_message "+989123456789"; sample_message ""] in
  let options := {| concurrency := Some 2; failFast := Some false |} in
  1 ≤ bulk_concurrency options
  ∧ bulk_failFast options = false
  ∧ (length messages < 3)%nat
  ∧ messages !! 1%nat = Some (sample_message "")
  ∧ core_verify sample_core (sent [] ++ take 1 messages) (sample_message "")
    = Thrown invalid_recipient
  ∧ ∃ results tr' response,
      verifyBulk sample_core latest_first 3 messages options []
      = (Normal results, tr')
      ∧ results !! 1%nat = Some (Some response)
      ∧ success response = false
      ∧ error response = Some "Recipient is required"
      ∧ errorCode response = Some "INVALID_RECIPIENT".
Proof.
  intros messages options.
  assert (Hc : 1 ≤ bulk_concurrency options) by (by vm_compute).
  assert (Hff : bulk_failFast options = false) by reflexivity.
  assert (Hfuel : (length messages < 3)%nat) by (simpl; lia).
  assert (Hm : messages !! 1%nat = Some (sample_message ""))
    by reflexivity.
  assert (He : core_verify sample_core (sent [] ++ take 1 messages)
                 (sample_message "") = Thrown invalid_recipient)
    by reflexivity.
  split_and!; [exact Hc|exact Hff|exact Hfuel|exact Hm|exact He|].
  destruct (verifyBulk_captures_exception sample_core latest_first
              latest_first_perm 3 messages options [] 1%nat
              (sample_message "") invalid_recipient Hc Hff Hfuel Hm He)
    as (results & tr' & response & Hrun & Hslot & Hsuccess & _ & Herror
        & Hcode & _).
  exists results, tr', response. split_and!; done.
Defined.

(** C4, as stated, fails for a thrown value that carries a code without
    being an [SmsException], whose code is lost, and for one that
    carries a message without being an [Error], whose message is lost. *)
Lemma verifyBulk_captures_exception_counterexample :
  let first := sample_message "+989123456789" in
  let second := sample_message "" in
  let options := {| concurrency := Some 2; failFast := Some false |} in
  core_verify offline_core [] first = Thrown connection_reset
  ∧ core_verify offline_core [first] second = Thrown gateway_fault
  ∧ thrown_code connection_reset = Some "ECONNRESET"
  ∧ carried_message gateway_fault = Some "Bad gateway"
  ∧ thrown_code gateway_fault = Some "502"
  ∧ verifyBulk offline_core latest_first 3 [first; second] options []
    = (Normal [Some {| success := false;
                       messageId := None;
                       error := Some "read ECONNRESET";
                       errorCode := Some "UNKNOWN_ERROR" |};
               Some {| success := false;
                       messageId := None;
                       error := Some "[object Object]";
                       errorCode := Some "UNKNOWN_ERROR" |}],
       [EvSend first; EvSend second; EvSettle 1; EvSettle 0])
  ∧ Some "UNKNOWN_ERROR" ≠ thrown_code connection_reset
  ∧ Some "[object Object]" ≠ carried_message gateway_fault.
Proof.
  intros first second options. split_and!; try reflexivity.
  - discriminate.
  - discriminate.
Qed.


Lemma sendOtpWithRetry_returns_response_witness :
  let message := otp_message blocked_recipient "123456" None in
  1 ≤ default 3 (Some 5)
  ∧ (0 < 1)%nat
  ∧ core_verify sample_core (sent []) message = Returned declined
  ∧ ∃ tr',
      sendOtpWithRetry sample_core 1 blocked_recipient "123456" (Some 5)
        None []
      = (Normal declined, tr')
      ∧ tr' = [] ++ [EvSend message]
      ∧ sent tr' = sent [] ++ [message]
      ∧ delays tr' = delays [].
Proof.
  intros message.
  assert (Hmax : 1 ≤ default 3 (Some 5)) by (by vm_compute).
  assert (Hfuel : (0 < 1)%nat) by lia.
  assert (Hr : core_verify sample_core (sent []) message = Returned declined)
    by reflexivity.
  split_and!; [exact Hmax|exact Hfuel|exact Hr|].
  exact (proj1 (sendOtpWithRetry_returns_response sample_core 1
                  blocked_recipient "123456" (Some 5) None [] Hmax)
               declined Hfuel Hr).
Defined.

(** The transport fails twice, then the third attempt goes through: two
    delays, of 2000 then 4000. *)
Lemma sendOtpWithRetry_third_attempt :
  sendOtpWithRetry flaky_core 4 "+989123456789" "123456" None None []
  = (Normal (accepted "+989123456789"),
     [EvSend (otp_message "+989123456789" "123456" None); EvDelay 2000;
      EvSend (otp_message "+989123456789" "123456" None); EvDelay 4000;
      EvSend (otp_message "+989123456789" "123456" None)]).
Proof. reflexivity. Qed.

Lemma sendOtpWithRetry_exhausts_retries_witness :
  let message := otp_message "" "123456" None in
  1 ≤ default 3 None
  ∧ (Z.to_nat (default 3%Z None) < 4)%nat
  ∧ (∀ j, (j < Z.to_nat (default 3%Z None))%nat →
       core_verify sample_core (sent [] ++ replicate j message) message
       = Thrown invalid_recipient)
  ∧ ∃ tr',
      sendOtpWithRetry sample_core 4 "" "123456" None None []
      = (Throw invalid_recipient, tr')
      ∧ tr' = [EvSend message; EvDelay 2000; EvSend message; EvDelay 4000;
               EvSend message]
      ∧ sent tr' = [message; message; message]
      ∧ delays tr' = [2000; 4000].
Proof.
  intros message.
  assert (Hmax : 1 ≤ default 3 None) by (by vm_compute).
  assert (Hfuel : (Z.to_nat (default 3%Z None) < 4)%nat) by (simpl; lia).
  assert (Herr : ∀ j, (j < Z.to_nat (default 3%Z None))%nat →
            core_verify sample_core (sent [] ++ replicate j message) message
            = Thrown invalid_recipient)
    by (intros j _; reflexivity).
  split_and!; [exact Hmax|exact Hfuel|exact Herr|].
  exact (sendOtpWithRetry_exhausts_retries sample_core 4 "" "123456" None
           None [] (fun _ => invalid_recipient) Hmax Hfuel Herr).
Defined.

Lemma sendWithFallback_first_success_witness :
  let message :=
    fallback_message "+989123456789" "verify" [("code", "123456")] MOCK in
  isDriverAvailable sample_core KAVENEGAR = false
  ∧ isDriverAvailable sample_core MOCK = true
  ∧ core_verify sample_core (sent []) message
    = Returned (accepted "+989123456789")
  ∧ success (accepted "+989123456789") = true
  ∧ sendWithFallback sample_core "+989123456789" "verify"
      [("code", "123456")] (Some KAVENEGAR) (Some MOCK) []
    = (Normal (accepted "+989123456789"), [] ++ [EvSend message]).
Proof.
  intros message. split_and!; [reflexivity..|].
  apply (proj2 (sendWithFallback_first_success sample_core "+989123456789"
                  "verify" [("code", "123456")] [])); reflexivity.
Defined.

Lemma sendWithFallback_last_failure_witness :
  let message1 :=
    fallback_message blocked_recipient "verify" [("code", "123456")]
      KAVENEGAR in
  let message2 :=
    fallback_message blocked_recipient "verify" [("code", "123456")] MOCK in
  isDriverAvailable declining_core KAVENEGAR = true
  ∧ isDriverAvailable declining_core MOCK = true
  ∧ core_verify declining_core (sent []) message1
    = Returned (declined_by KAVENEGAR)
  ∧ success (declined_by KAVENEGAR) = false
  ∧ core_verify declining_core (sent [] ++ [message1]) message2
    = Returned (declined_by MOCK)
  ∧ success (declined_by MOCK) = false
  ∧ declined_by MOCK ≠ declined_by KAVENEGAR
  ∧ sendWithFallback declining_core blocked_recipient "verify"
      [("code", "123456")] (Some KAVENEGAR) (Some MOCK) []
    = (Normal (declined_by MOCK), [] ++ [EvSend message1; EvSend message2])
  ∧ (Forall (fun o => is_success o = false)
            (outcomes sample_core (sent [])
               (fallback_messages sample_core "" "verify"
                  [("code", "123456")]
                  (fallback_drivers sample_core None None)))
     ∧ ∃ response,
         sendWithFallback sample_core "" "verify" [("code", "123456")]
           None None []
         = (Normal response,
            [] ++ [EvSend (fallback_message "" "verify"
                             [("code", "123456")] MOCK)])
         ∧ success response = false
         ∧ error response = Some "All drivers failed or unavailable").
Proof.
  intros message1 message2.
  pose proof (sendWithFallback_last_failure declining_core
                blocked_recipient "verify" [("code", "123456")] [])
    as [_ Hsecond].
  pose proof (sendWithFallback_last_failure sample_core
                "" "verify" [("code", "123456")] [])
    as [Hexhausted _].
  assert (Hnone : Forall (fun o => is_success o = false)
            (outcomes sample_core (sent [])
               (fallback_messages sample_core "" "verify"
                  [("code", "123456")]
                  (fallback_drivers sample_core None None))))
    by (repeat constructor).
  split_and!; [reflexivity..|discriminate| | |].
  - apply (Hsecond KAVENEGAR MOCK (declined_by KAVENEGAR)
             (declined_by MOCK)); reflexivity.
  - exact Hnone.
  - destruct (proj2 (Hexhausted None None) Hnone)
      as (response & Hrun & _ & Hsuccess & _ & Hsynthetic).
    exists response. split; [exact Hrun|]. split; [exact Hsuccess|].
    rewrite Hsynthetic; [reflexivity|]. repeat constructor.
Defined.

(** Every candidate unavailable or throwing: the synthetic response. *)
Lemma sendWithFallback_all_failed :
  sendWithFallback sample_core "" "verify" [("code", "123456")] None None []
  = (Normal all_failed,
     [EvSend (fallback_message "" "verify" [("code", "123456")] MOCK)]).
Proof. reflexivity. Qed.

Lemma fallback_drivers_two_candidates_witness :
  fallback_drivers sample_core (Some MOCK) None = [MOCK; MOCK]
  ∧ fallback_drivers sample_core None None = [KAVENEGAR; MOCK].
Proof.
  split.
  - apply (proj1 (proj2 (proj2
             (fallback_drivers_two_candidates sample_core (Some MOCK) None)))).
    + reflexivity.
    + intros d Hd. apply list_elem_of_In in Hd. simpl in Hd.
      destruct Hd as [<-|[]]. reflexivity.
  - apply (proj1 (fallback_drivers_two_candidates sample_core None None)).
Defined.
